(** * Closed-form integrals of the product Matern-3/2 kernel

    A shallow embedding of
    [emukit/quadrature/kernels/quadrature_matern32.py] over exact real
    arithmetic.  Floating-point numbers are read as real numbers, NumPy
    arrays as lists with an explicit shape, and Python exceptions as the
    error branch of a small result monad.  The module [Double] embeds
    [_qKq_1d] and [qKq] a second time, in IEEE binary64 arithmetic, for the
    statements that depend on rounding. *)

From Stdlib Require Import PrimFloat.
From Stdlib Require FloatOps SpecFloat.
From Stdlib Require Import Reals Lra Lia List ZArith Bool.
Import ListNotations.

Local Open Scope R_scope.

(** ** Exceptions and the result monad *)

Inductive exn : Set :=
| IndexError
| NotImplementedError.

Inductive result (A : Type) : Type :=
| Ok (a : A)
| Raise (e : exn).

Arguments Ok {A} a.
Arguments Raise {A} e.

Definition bind {A B : Type} (m : result A) (k : A -> result B) : result B :=
  match m with
  | Ok a => k a
  | Raise e => Raise e
  end.

Notation "x <- m ;; k" := (bind m (fun x => k))
  (at level 61, m at next level, right associativity).

(** [l[i]] for a non-negative index [i] on a Python list or a 1-D array. *)
Definition index {A : Type} (l : list A) (i : nat) : result A :=
  match nth_error l i with
  | Some v => Ok v
  | None => Raise IndexError
  end.

(** ** The fragment of NumPy the module uses *)

Module Np.

(** One-dimensional arrays of shape [(n,)]. *)
Definition vec := list R.

(** [np.ones(n)] *)
Definition ones (n : nat) : vec := repeat 1 n.

(** Elementwise unary operations. *)
Definition exp (v : vec) : vec := map Rtrigo_def.exp v.
Definition neg (v : vec) : vec := map Ropp v.

(** Elementwise binary operation on two arrays of one shape. *)
Definition zip_with (f : R -> R -> R) (u v : vec) : vec :=
  map (fun p => f (fst p) (snd p)) (combine u v).

Definition add (u v : vec) : vec := zip_with Rplus u v.
Definition mul (u v : vec) : vec := zip_with Rmult u v.

(** An array and a scalar, the scalar broadcast: [v + s], [v - s],
    [v * s], [v / s] and [s + v], [s - v], [s * v]. *)
Definition add_s (v : vec) (s : R) : vec := map (fun x => x + s) v.
Definition sub_s (v : vec) (s : R) : vec := map (fun x => x - s) v.
Definition mul_s (v : vec) (s : R) : vec := map (fun x => x * s) v.
Definition div_s (v : vec) (s : R) : vec := map (fun x => x / s) v.
Definition s_add (s : R) (v : vec) : vec := map (fun x => s + x) v.
Definition s_sub (s : R) (v : vec) : vec := map (fun x => s - x) v.
Definition s_mul (s : R) (v : vec) : vec := map (fun x => s * x) v.

(** Two-dimensional arrays: the shape and the rows. *)
Record array2 : Type := mk_array2 {
  shape : nat * nat;
  data : list (list R)
}.

(** The rows agree with the shape. *)
Definition wf (x : array2) : Prop :=
  length (data x) = fst (shape x) /\
  Forall (fun r => length r = snd (shape x)) (data x).

(** [x[i, j]] *)
Definition get (x : array2) (i j : nat) : R := nth j (nth i (data x) []) 0.

(** [x[i, :]] *)
Definition row (x : array2) (i : nat) : vec := nth i (data x) [].

(** [x[:, j]] *)
Definition col (x : array2) (j : nat) : vec :=
  map (fun r => nth j r 0) (data x).

(** [v[None, :]] *)
Definition as_row (v : vec) : array2 :=
  {| shape := (1%nat, length v); data := [v] |}.

(** [x * s] for a scalar [s] *)
Definition mul2_s (x : array2) (s : R) : array2 :=
  {| shape := shape x; data := map (fun r => mul_s r s) (data x) |}.

(** [np.zeros([n, m])] *)
Definition zeros2 (n m : nat) : array2 :=
  {| shape := (n, m); data := repeat (repeat 0 m) n |}.

Fixpoint update {A : Type} (l : list A) (i : nat) (v : A) : list A :=
  match l, i with
  | [], _ => []
  | _ :: t, O => v :: t
  | h :: t, S i' => h :: update t i' v
  end.

(** [x[i, :] = v], for [i] within the first axis *)
Definition set_row (x : array2) (i : nat) (v : vec) : array2 :=
  {| shape := shape x; data := update (data x) i v |}.

(** [x.T] *)
Definition T (x : array2) : array2 :=
  {| shape := (snd (shape x), fst (shape x));
     data := map (col x) (seq 0 (snd (shape x))) |}.

End Np.

(** ** The collaborators the module reads *)

(** The kernel: [lengthscales] (an array) and [variance]. *)
Record IProductMatern32 : Type := {
  kern_lengthscales : Np.vec;
  kern_variance : R
}.

(** The bounds container: a list of [(lower, upper)] pairs. *)
Record IntegralBounds : Type := {
  bounds : list (R * R)
}.

(** Modelled from the spec: the base class [QuadratureKernel] is not part
    of the module; its [input_dim] accessor is derived from the number of
    bound pairs. *)
Definition bounds_dim (ib : IntegralBounds) : nat := length (bounds ib).

(** [if skip is None: skip = []] *)
Definition default_skip (skip : option (list Z)) : list Z :=
  match skip with
  | None => []
  | Some s => s
  end.

(** [dim in skip] *)
Definition contains (skip : list Z) (dim : nat) : bool :=
  existsb (Z.eqb (Z.of_nat dim)) skip.

(** The methods a subclass of [QuadratureMatern32] answers to; [Kq] and
    [dKq_dx] are inherited and call back into them through [self]. *)
Class Matern32Methods (Self : Type) : Type := {
  self_qK : Self -> Np.array2 -> option (list Z) -> result Np.array2;
  self_qKq : Self -> result R;
  self_dqK_dx : Self -> Np.array2 -> result Np.array2
}.

(** ** class QuadratureMatern32 *)

Module QuadratureMatern32.

(** The general variant holds a kernel, optional bounds and an optional
    measure of a type [M] that the module does not define. *)
Record t (M : Type) : Type := {
  kern : IProductMatern32;
  integral_bounds : option IntegralBounds;
  measure : option M
}.
Arguments kern {M} _.
Arguments integral_bounds {M} _.
Arguments measure {M} _.

Definition lengthscales {M} (self : t M) : Np.vec :=
  kern_lengthscales (kern self).
Definition variance {M} (self : t M) : R := kern_variance (kern self).

Definition qK {M} (self : t M) (x2 : Np.array2) : result Np.array2 :=
  Raise NotImplementedError.

Definition qKq {M} (self : t M) : result R := Raise NotImplementedError.

Definition dqK_dx {M} (self : t M) (x2 : Np.array2) : result Np.array2 :=
  Raise NotImplementedError.

(** [return self.qK(x1).T] *)
Definition Kq {Self} `{Matern32Methods Self} (self : Self)
    (x1 : Np.array2) : result Np.array2 :=
  r <- self_qK self x1 None ;; Ok (Np.T r).

(** [return self.dqK_dx(x1).T] *)
Definition dKq_dx {Self} `{Matern32Methods Self} (self : Self)
    (x1 : Np.array2) : result Np.array2 :=
  r <- self_dqK_dx self x1 ;; Ok (Np.T r).

End QuadratureMatern32.

#[export] Instance general_methods (M : Type)
  : Matern32Methods (QuadratureMatern32.t M) := {
  self_qK self x2 _ := QuadratureMatern32.qK self x2;
  self_qKq self := QuadratureMatern32.qKq self;
  self_dqK_dx self x2 := QuadratureMatern32.dqK_dx self x2
}.

(** ** class QuadratureProductMatern32LebesgueMeasure *)

Module QuadratureProductMatern32LebesgueMeasure.

(** The constructor passes [measure=None] and a bounds list. *)
Record t : Type := {
  kern : IProductMatern32;
  integral_bounds : IntegralBounds
}.

Definition lengthscales (self : t) : Np.vec := kern_lengthscales (kern self).
Definition variance (self : t) : R := kern_variance (kern self).
Definition input_dim (self : t) : nat := bounds_dim (integral_bounds self).

(** *** One-dimensional integrals *)

(** [_qK_1d] on an array [x]. *)
Definition _qK_1d (x : Np.vec) (domain : R * R) (ell : R) : Np.vec :=
  let '(a, b) := domain in
  let s3 := sqrt 3 in
  let first_term := 4 * ell / s3 in
  let second_term :=
    Np.mul (Np.neg (Np.exp (Np.div_s (Np.s_mul s3 (Np.sub_s x b)) ell)))
           (Np.s_sub (b + 2 * ell / s3) x) in
  let third_term :=
    Np.mul (Np.neg (Np.exp (Np.div_s (Np.s_mul s3 (Np.s_sub a x)) ell)))
           (Np.sub_s (Np.add_s x (2 * ell / s3)) a) in
  Np.add (Np.s_add first_term second_term) third_term.

(** [_qK_1d] on a scalar [x]. *)
Definition _qK_1d_scalar (x : R) (domain : R * R) (ell : R) : R :=
  let '(a, b) := domain in
  let s3 := sqrt 3 in
  let first_term := 4 * ell / s3 in
  let second_term := - exp (s3 * (x - b) / ell) * (b + 2 * ell / s3 - x) in
  let third_term := - exp (s3 * (a - x) / ell) * (x + 2 * ell / s3 - a) in
  first_term + second_term + third_term.

Definition _qKq_1d (domain : R * R) (ell : R) : R :=
  let '(a, b) := domain in
  let r := b - a in
  let c := sqrt 3 * r in
  let qKq := 2 * ell / 3 * (2 * c - 3 * ell + exp (- c / ell) * (c + 3 * ell)) in
  qKq.

(** [_dqK_dx_1d] on an array [x]. *)
Definition _dqK_dx_1d (x : Np.vec) (domain : R * R) (ell : R) : Np.vec :=
  let s3 := sqrt 3 in
  let '(a, b) := domain in
  let exp_term_b := Np.exp (Np.div_s (Np.s_mul s3 (Np.sub_s x b)) ell) in
  let exp_term_a := Np.exp (Np.div_s (Np.s_mul s3 (Np.s_sub a x)) ell) in
  let first_term :=
    Np.mul exp_term_b (Np.s_add (-1) (Np.s_mul (s3 / ell) (Np.sub_s x b))) in
  let second_term :=
    Np.mul exp_term_a (Np.s_sub 1 (Np.s_mul (s3 / ell) (Np.s_sub a x))) in
  Np.add first_term second_term.

(** [_dqK_dx_1d] on a scalar [x]. *)
Definition _dqK_dx_1d_scalar (x : R) (domain : R * R) (ell : R) : R :=
  let s3 := sqrt 3 in
  let '(a, b) := domain in
  let exp_term_b := exp (s3 * (x - b) / ell) in
  let exp_term_a := exp (s3 * (a - x) / ell) in
  let first_term := exp_term_b * (-1 + (s3 / ell) * (x - b)) in
  let second_term := exp_term_a * (1 - (s3 / ell) * (a - x)) in
  first_term + second_term.

(** *** Products over the dimensions *)

(** The body of [for dim in range(x2.shape[1])] in [qK], with the
    accumulator [qK] threaded through. *)
Fixpoint qK_loop (self : t) (x2 : Np.array2) (skip : list Z)
    (dims : list nat) (acc : Np.vec) : result Np.vec :=
  match dims with
  | [] => Ok acc
  | dim :: rest =>
      if contains skip dim then qK_loop self x2 skip rest acc
      else
        domain <- index (bounds (integral_bounds self)) dim ;;
        ell <- index (lengthscales self) dim ;;
        qK_loop self x2 skip rest
          (Np.mul acc (_qK_1d (Np.col x2 dim) domain ell))
  end.

Definition qK (self : t) (x2 : Np.array2) (skip : option (list Z))
    : result Np.array2 :=
  let skip := default_skip skip in
  let qK0 := Np.ones (fst (Np.shape x2)) in
  qK1 <- qK_loop self x2 skip (seq 0 (snd (Np.shape x2))) qK0 ;;
  Ok (Np.mul2_s (Np.as_row qK1) (variance self)).

(** The body of [for dim in range(self.input_dim)] in [qKq]. *)
Fixpoint qKq_loop (self : t) (dims : list nat) (acc : R) : result R :=
  match dims with
  | [] => Ok acc
  | dim :: rest =>
      domain <- index (bounds (integral_bounds self)) dim ;;
      ell <- index (lengthscales self) dim ;;
      qKq_loop self rest (acc * _qKq_1d domain ell)
  end.

Definition qKq (self : t) : result R :=
  qKq1 <- qKq_loop self (seq 0 (input_dim self)) 1 ;;
  Ok (variance self * qKq1).

(** The body of [for dim in range(input_dim)] in [dqK_dx]. *)
Fixpoint dqK_dx_loop (self : t) (x2 : Np.array2) (dims : list nat)
    (acc : Np.array2) : result Np.array2 :=
  match dims with
  | [] => Ok acc
  | dim :: rest =>
      domain <- index (bounds (integral_bounds self)) dim ;;
      ell <- index (lengthscales self) dim ;;
      let grad_term := _dqK_dx_1d (Np.col x2 dim) domain ell in
      other <- qK self x2 (Some [Z.of_nat dim]) ;;
      dqK_dx_loop self x2 rest
        (Np.set_row acc dim (Np.mul grad_term (Np.row other 0)))
  end.

Definition dqK_dx (self : t) (x2 : Np.array2) : result Np.array2 :=
  let input_dim := snd (Np.shape x2) in
  let dqK_dx0 := Np.zeros2 input_dim (fst (Np.shape x2)) in
  dqK_dx_loop self x2 (seq 0 input_dim) dqK_dx0.

End QuadratureProductMatern32LebesgueMeasure.

#[export] Instance lebesgue_methods
  : Matern32Methods QuadratureProductMatern32LebesgueMeasure.t := {
  self_qK := QuadratureProductMatern32LebesgueMeasure.qK;
  self_qKq := QuadratureProductMatern32LebesgueMeasure.qKq;
  self_dqK_dx := QuadratureProductMatern32LebesgueMeasure.dqK_dx
}.

Import QuadratureProductMatern32LebesgueMeasure.

(** ** The doubly integrated kernel in IEEE double arithmetic *)

Module Double.

(** The parameters the engine reads, as doubles: [kern.lengthscales],
    [kern.variance] and [integral_bounds.bounds]. *)
Record t : Type := {
  lengthscales : list float;
  variance : float;
  bounds : list (float * float)
}.

(** Modelled from the spec: [input_dim], from the number of bound pairs. *)
Definition input_dim (self : t) : nat := length (bounds self).

(** [_qKq_1d] with every operation rounded to the nearest double.  NumPy's
    [np.exp] is the platform's routine and is taken as the parameter
    [np_exp]; [np.sqrt] is the correctly rounded square root. *)
Definition _qKq_1d (np_exp : float -> float) (domain : float * float)
    (ell : float) : float :=
  (let '(a, b) := domain in
   let r := b - a in
   let c := PrimFloat.sqrt 3 * r in
   let qKq :=
     2 * ell / 3 * (2 * c - 3 * ell + np_exp (- c / ell) * (c + 3 * ell)) in
   qKq)%float.

Fixpoint qKq_loop (np_exp : float -> float) (self : t) (dims : list nat)
    (acc : float) : result float :=
  match dims with
  | [] => Ok acc
  | dim :: rest =>
      domain <- index (bounds self) dim ;;
      ell <- index (lengthscales self) dim ;;
      qKq_loop np_exp self rest (acc * _qKq_1d np_exp domain ell)%float
  end.

Definition qKq (np_exp : float -> float) (self : t) : result float :=
  qKq1 <- qKq_loop np_exp self (seq 0 (input_dim self)) 1%float ;;
  Ok (variance self * qKq1)%float.

(** Valid parameters: finite bounds with lower < upper, finite positive
    lengthscales, finite positive variance, one lengthscale per bound
    pair. *)
Definition valid_params (self : t) : bool :=
  forallb (fun d => is_finite (fst d) && is_finite (snd d) &&
                    (fst d <? snd d)%float) (bounds self) &&
  forallb (fun ell => is_finite ell && (0 <? ell)%float) (lengthscales self) &&
  (is_finite (variance self) && (0 <? variance self)%float) &&
  Nat.eqb (length (lengthscales self)) (length (bounds self)).

(** The real number a finite double stands for (0 for infinities and
    NaN). *)
Definition to_R (f : float) : R :=
  match FloatOps.Prim2SF f with
  | SpecFloat.S754_finite s m e =>
      let v := match e with
               | Zneg p => IZR (Zpos m) / IZR (Z.pow_pos 2 p)
               | _ => IZR (Zpos m) * IZR (2 ^ e)
               end in
      if s then - v else v
  | _ => 0
  end.

End Double.

(** ** Vocabulary of the statements *)

(** The product of a list of reals. *)
Definition Rprod (l : list R) : R := fold_right Rmult 1 l.

(** The dimensions [0..D-1] that are not in [skip], in increasing order. *)
Definition kept (skip : list Z) (D : nat) : list nat :=
  filter (fun d => negb (contains skip d)) (seq 0 D).

(** [bounds[d]] and [lengthscales[d]] for an index known to be in range. *)
Definition bound_at (self : t) (d : nat) : R * R :=
  nth d (bounds (integral_bounds self)) (0, 0).
Definition ell_at (self : t) (d : nat) : R := nth d (lengthscales self) 0.

(** The factor of dimension [d] at the point of row [i]. *)
Definition factor (self : t) (x2 : Np.array2) (i d : nat) : R :=
  _qK_1d_scalar (Np.get x2 i d) (bound_at self d) (ell_at self d).

(** One pass of the loop of [qK] at a dimension that is in range. *)
Definition qK_step (self : t) (x2 : Np.array2) (acc : Np.vec) (d : nat)
    : Np.vec :=
  Np.mul acc (_qK_1d (Np.col x2 d) (bound_at self d) (ell_at self d)).

(** [qK(x2, skip=[d])[0, :]], the empty array standing for a failure. *)
Definition other_factors (self : t) (x2 : Np.array2) (d : nat) : Np.vec :=
  match qK self x2 (Some [Z.of_nat d]) with
  | Ok q => Np.row q 0
  | Raise _ => []
  end.

(** The row that [dqK_dx] stores at index [d]. *)
Definition gradient_row (self : t) (x2 : Np.array2) (d : nat) : Np.vec :=
  Np.mul (_dqK_dx_1d (Np.col x2 d) (bound_at self d) (ell_at self d))
         (other_factors self x2 d).

(** One pass of the loop of [dqK_dx] at a dimension where nothing fails. *)
Definition dqK_dx_step (self : t) (x2 : Np.array2) (acc : Np.array2)
    (d : nat) : Np.array2 :=
  Np.set_row acc d (gradient_row self x2 d).

(** The factor of [qKq] at dimension [d], written out. *)
Definition qKq_factor (self : t) (d : nat) : R :=
  let '(a, b) := bound_at self d in
  let ell := ell_at self d in
  let c := sqrt 3 * (b - a) in
  (2 * ell / 3) * (2 * c - 3 * ell + exp (- c / ell) * (c + 3 * ell)).

(** The engine has dimensionality [D]. *)
Definition engine_dim (self : t) (D : nat) : Prop :=
  length (bounds (integral_bounds self)) = D /\ length (lengthscales self) = D.

(** Valid parameters: finite bounds with lower < upper, positive
    lengthscales, positive variance, one lengthscale per bound pair. *)
Definition valid_params (self : t) : Prop :=
  Forall (fun d => fst d < snd d) (bounds (integral_bounds self)) /\
  Forall (fun ell => 0 < ell) (lengthscales self) /\
  0 < variance self /\
  length (lengthscales self) = length (bounds (integral_bounds self)).

(** [x2[i:i+1, :]] for a row index [i] in range: the batch of the single
    point [i]. *)
Definition single_row (x2 : Np.array2) (i : nat) : Np.array2 :=
  {| Np.shape := (1%nat, snd (Np.shape x2)); Np.data := [Np.row x2 i] |}.

(** A copy of [x2] in which [x2[i, d] = y] has been stored. *)
Definition with_entry (x2 : Np.array2) (i d : nat) (y : R) : Np.array2 :=
  {| Np.shape := Np.shape x2;
     Np.data := Np.update (Np.data x2) i (Np.update (Np.row x2 i) d y) |}.

(** [qK(x2)[0, i]], with 0 standing for a failure. *)
Definition qK_entry (self : t) (x2 : Np.array2) (i : nat) : R :=
  match qK self x2 None with
  | Ok q => Np.get q 0 i
  | Raise _ => 0
  end.

(** An antiderivative of [x |-> _qK_1d(x, (a, b), ell)]. *)
Definition qK_1d_primitive (x : R) (domain : R * R) (ell : R) : R :=
  let '(a, b) := domain in
  let k := sqrt 3 / ell in
  4 * ell / sqrt 3 * x
  - exp (k * x + - k * b) * (- / k * x + (3 / (k * k) + b / k))
  + exp (- k * x + k * a) * (/ k * x + (3 / (k * k) - a / k)).

(** Every point of the batch lies in the integration domain. *)
Definition in_domain (self : t) (x2 : Np.array2) : Prop :=
  forall i d,
    (i < fst (Np.shape x2))%nat -> (d < snd (Np.shape x2))%nat ->
    fst (bound_at self d) <= Np.get x2 i d <= snd (bound_at self d).

(** *** Concrete engines and points *)

(** One dimension: domain [(0, 1)], lengthscale 1, variance 1. *)
Definition unit_engine : t :=
  {| kern := {| kern_lengthscales := [1]; kern_variance := 1 |};
     integral_bounds := {| bounds := [(0, 1)] |} |}.

(** Two dimensions: domain [(0, 1) x (0, 2)], lengthscales 1 and 1/2,
    variance 2. *)
Definition square_engine : t :=
  {| kern := {| kern_lengthscales := [1; 1 / 2]; kern_variance := 2 |};
     integral_bounds := {| bounds := [(0, 1); (0, 2)] |} |}.

(** [np.array([[0.5]])] *)
Definition half_point : Np.array2 :=
  {| Np.shape := (1%nat, 1%nat); Np.data := [[1 / 2]] |}.

(** [np.array([[0.25, 0.5], [0.75, 1.0]])] *)
Definition two_points : Np.array2 :=
  {| Np.shape := (2%nat, 2%nat); Np.data := [[1 / 4; 1 / 2]; [3 / 4; 1]] |}.

(** [np.array([[0.25, 0.5, 0.0]])] *)
Definition wide_point : Np.array2 :=
  {| Np.shape := (1%nat, 3%nat); Np.data := [[1 / 4; 1 / 2; 0]] |}.

(** The 1-D Matern-3/2 profile at scaled distance [u], as it appears in
    [_dqK_dx_1d]. *)
Definition matern32_profile (u : R) : R := exp (- u) * (1 + u).

(** One dimension in doubles: domain [(0, 1.25 * 2^-32)], lengthscale 3,
    variance 1. *)
Definition narrow_engine : Double.t :=
  {| Double.lengthscales := [3%float];
     Double.variance := 1%float;
     Double.bounds := [(0%float, 0x1.4p-32%float)] |}.

(** The argument [-c / ell] that [_qKq_1d] passes to [np.exp] on
    [narrow_engine], and the two adjacent doubles that enclose its exact
    exponential. *)
Definition narrow_exp_arg : float :=
  (- (PrimFloat.sqrt 3 * (0x1.4p-32 - 0)) / 3)%float.
Definition narrow_exp_below : float := 0x1.fffffffe8e7eep-1%float.
Definition narrow_exp_above : float := 0x1.fffffffe8e7efp-1%float.

(** Two bound pairs but a single lengthscale. *)
Definition short_lengthscales_engine : t :=
  {| kern := {| kern_lengthscales := [1]; kern_variance := 2 |};
     integral_bounds := {| bounds := [(0, 1); (0, 2)] |} |}.

(** Two bound pairs and three lengthscales. *)
Definition long_lengthscales_engine : t :=
  {| kern := {| kern_lengthscales := [1; 1 / 2; 3]; kern_variance := 2 |};
     integral_bounds := {| bounds := [(0, 1); (0, 2)] |} |}.

(** The dimensionless part of [_qKq_1d] in the variable [t = c / ell], and
    its derivative. *)
Definition qKq_shape (t : R) : R := 2 * t - 3 + exp (- t) * (t + 3).
Definition qKq_shape' (t : R) : R := 2 - exp (- t) * (t + 2).

(** ** The one-dimensional primitives *)

Section Analysis.

Lemma sqrt3_pos : 0 < sqrt 3.
Proof. apply sqrt_lt_R0; lra. Qed.

(** The derivative of [x |-> exp (k * x + c)]. *)
Lemma derivable_pt_lim_exp_affine (k c x : R) :
  derivable_pt_lim (fun y => exp (k * y + c)) x (k * exp (k * x + c)).
Proof.
  assert (Hin : derivable_pt_lim (fun y => k * y + c) x k).
  { apply derivable_pt_lim_ext with (f := (mult_real_fct k id + fct_cte c)%F).
    - intros z; reflexivity.
    - replace k with (k * 1 + 0) at 2 by ring.
      apply derivable_pt_lim_plus.
      + apply derivable_pt_lim_scal, derivable_pt_lim_id.
      + apply derivable_pt_lim_const. }
  pose proof (derivable_pt_lim_comp (fun y => k * y + c) exp x k
                (exp (k * x + c)) Hin (derivable_pt_lim_exp _)) as H.
  rewrite Rmult_comm.
  exact H.
Qed.

(** The derivative of [x |-> p * x + q]. *)
Lemma derivable_pt_lim_affine (p q x : R) :
  derivable_pt_lim (fun y => p * y + q) x p.
Proof.
  apply derivable_pt_lim_ext with (f := (mult_real_fct p id + fct_cte q)%F).
  - intros z; reflexivity.
  - replace p with (p * 1 + 0) at 2 by ring.
    apply derivable_pt_lim_plus.
    + apply derivable_pt_lim_scal, derivable_pt_lim_id.
    + apply derivable_pt_lim_const.
Qed.

(** The derivative of an exponential of an affine map times an affine map. *)
Lemma derivable_pt_lim_exp_times_affine (k c p q x : R) :
  derivable_pt_lim (fun y => exp (k * y + c) * (p * y + q)) x
    (k * exp (k * x + c) * (p * x + q) + exp (k * x + c) * p).
Proof.
  exact (derivable_pt_lim_mult (fun y => exp (k * y + c)) (fun y => p * y + q)
           x _ _ (derivable_pt_lim_exp_affine k c x)
           (derivable_pt_lim_affine p q x)).
Qed.

End Analysis.

(** C4: for every a < b, ell > 0 and real x, the function
    x |-> _qK_1d(x, (a,b), ell) is differentiable at x and its derivative
    there is _dqK_dx_1d(x, (a,b), ell). *)
Theorem dqK_dx_1d_is_derivative (a b ell x : R) :
  a < b -> 0 < ell ->
  derivable_pt_lim (fun y => _qK_1d_scalar y (a, b) ell) x
    (_dqK_dx_1d_scalar x (a, b) ell).
Proof.
  intros _ Hell.
  pose proof sqrt3_pos as Hs.
  set (s3 := sqrt 3) in *.
  set (k := s3 / ell).
  pose proof (derivable_pt_lim_exp_times_affine k (- k * b) (-1)
                (b + 2 * ell / s3) x) as H2.
  pose proof (derivable_pt_lim_exp_times_affine (- k) (k * a) 1
                (2 * ell / s3 - a) x) as H3.
  pose proof (derivable_pt_lim_minus _ _ x _ _
                (derivable_pt_lim_minus _ _ x _ _
                   (derivable_pt_lim_const (4 * ell / s3) x) H2) H3) as H.
  unfold minus_fct, fct_cte in H.
  eapply derivable_pt_lim_ext; [ | replace (_dqK_dx_1d_scalar x (a, b) ell)
    with (0 - (k * exp (k * x + - k * b) * (-1 * x + (b + 2 * ell / s3)) +
               exp (k * x + - k * b) * -1) -
          (- k * exp (- k * x + k * a) * (1 * x + (2 * ell / s3 - a)) +
           exp (- k * x + k * a) * 1)); [ exact H | ] ].
  - intros z. unfold _qK_1d_scalar. fold s3.
    replace (s3 * (z - b) / ell) with (k * z + - k * b)
      by (unfold k; field; lra).
    replace (s3 * (a - z) / ell) with (- k * z + k * a)
      by (unfold k; field; lra).
    ring.
  - unfold _dqK_dx_1d_scalar. fold s3.
    replace (s3 * (x - b) / ell) with (k * x + - k * b)
      by (unfold k; field; lra).
    replace (s3 * (a - x) / ell) with (- k * x + k * a)
      by (unfold k; field; lra).
    fold k. unfold k. field. split; lra.
Qed.

(** The theorem at a = 0, b = 1, ell = 1, x = 1/2. *)
Lemma dqK_dx_1d_is_derivative_witness :
  derivable_pt_lim (fun y => _qK_1d_scalar y (0, 1) 1) (1 / 2)
    (_dqK_dx_1d_scalar (1 / 2) (0, 1) 1).
Proof. apply dqK_dx_1d_is_derivative; lra. Defined.

(** C9: _qK_1d is symmetric under reflection of the evaluation point
    through the midpoint of the domain. *)
Theorem qK_1d_reflection (a b ell x : R) :
  a < b -> 0 < ell ->
  _qK_1d_scalar (a + b - x) (a, b) ell = _qK_1d_scalar x (a, b) ell.
Proof.
  intros _ _. unfold _qK_1d_scalar. cbv zeta.
  replace (a + b - x - b) with (a - x) by ring.
  replace (a - (a + b - x)) with (x - b) by ring.
  ring.
Qed.

(** The theorem at a = 0, b = 1, ell = 1, x = 1/4. *)
Lemma qK_1d_reflection_witness :
  _qK_1d_scalar (0 + 1 - 1 / 4) (0, 1) 1 = _qK_1d_scalar (1 / 4) (0, 1) 1.
Proof. apply qK_1d_reflection; lra. Defined.

(** *** Sign of the doubly integrated kernel *)

Lemma qKq_shape_derivative (t : R) :
  derivable_pt_lim qKq_shape t (qKq_shape' t).
Proof.
  pose proof (derivable_pt_lim_plus _ _ t _ _
                (derivable_pt_lim_affine 2 (-3) t)
                (derivable_pt_lim_exp_times_affine (-1) 0 1 3 t)) as H.
  unfold plus_fct in H.
  eapply derivable_pt_lim_ext;
    [ | replace (qKq_shape' t)
          with (2 + (-1 * exp (-1 * t + 0) * (1 * t + 3) +
                     exp (-1 * t + 0) * 1)); [ exact H | ] ].
  - intros z. unfold qKq_shape.
    replace (-1 * z + 0) with (- z) by ring. ring.
  - unfold qKq_shape'.
    replace (-1 * t + 0) with (- t) by ring. ring.
Qed.

Lemma qKq_shape'_nonneg (t : R) : 0 <= t -> 0 <= qKq_shape' t.
Proof.
  intros Ht. unfold qKq_shape'.
  pose proof (exp_ineq1_le t) as Hle.
  pose proof (exp_pos (- t)) as Hpos.
  assert (Hinv : exp (- t) * exp t = 1).
  { rewrite <- exp_plus. replace (- t + t) with 0 by ring. apply exp_0. }
  assert (Hb : exp (- t) * (t + 2) <= exp (- t) * (2 * exp t)).
  { apply Rmult_le_compat_l; lra. }
  replace (exp (- t) * (2 * exp t)) with 2 in Hb
    by (rewrite <- (Rmult_1_r 2) at 1; rewrite <- Hinv; ring).
  lra.
Qed.

Lemma qKq_shape_0 : qKq_shape 0 = 0.
Proof. unfold qKq_shape. rewrite Ropp_0, exp_0. ring. Qed.

Lemma qKq_shape_nonneg (t : R) : 0 <= t -> 0 <= qKq_shape t.
Proof.
  intros [Hlt | <-]; [ | rewrite qKq_shape_0; lra ].
  destruct (MVT_cor2 qKq_shape qKq_shape' 0 t Hlt) as [c [Heq [Hc0 Hct]]].
  { intros; apply qKq_shape_derivative. }
  rewrite qKq_shape_0 in Heq.
  assert (Hd : 0 <= qKq_shape' c) by (apply qKq_shape'_nonneg; lra).
  assert (Hm : 0 <= qKq_shape' c * (t - 0)) by (apply Rmult_le_pos; lra).
  lra.
Qed.

Lemma qKq_1d_as_shape (a b ell : R) :
  0 < ell ->
  _qKq_1d (a, b) ell = 2 * ell * ell / 3 * qKq_shape (sqrt 3 * (b - a) / ell).
Proof.
  intros Hell. unfold _qKq_1d, qKq_shape. cbv zeta.
  replace (- (sqrt 3 * (b - a)) / ell) with (- (sqrt 3 * (b - a) / ell))
    by (field; lra).
  field. lra.
Qed.

Lemma qKq_1d_nonneg (a b ell : R) :
  0 < ell -> a <= b -> 0 <= _qKq_1d (a, b) ell.
Proof.
  intros Hell Hab. rewrite qKq_1d_as_shape by assumption.
  apply Rmult_le_pos.
  - assert (0 < ell * ell) by (apply Rmult_lt_0_compat; assumption). lra.
  - apply qKq_shape_nonneg.
    apply Rmult_le_pos; [ | left; apply Rinv_0_lt_compat; assumption ].
    apply Rmult_le_pos; [ apply sqrt_pos | lra ].
Qed.

(** ** Arrays *)

Section Arrays.

Lemma index_in_range {A : Type} (l : list A) (i : nat) (d : A) :
  (i < length l)%nat -> index l i = Ok (nth i l d).
Proof.
  intros Hi. unfold index.
  rewrite (nth_error_nth' l d Hi). reflexivity.
Qed.

Lemma index_out_of_range {A : Type} (l : list A) (i : nat) :
  (length l <= i)%nat -> index l i = Raise IndexError.
Proof.
  intros Hi. unfold index.
  apply nth_error_None in Hi. rewrite Hi. reflexivity.
Qed.

Lemma zip_with_map (f : R -> R -> R) (g h : R -> R) (x : Np.vec) :
  Np.zip_with f (map g x) (map h x) = map (fun xi => f (g xi) (h xi)) x.
Proof.
  unfold Np.zip_with.
  induction x as [ | xi x IH]; simpl; [ reflexivity | ].
  f_equal. exact IH.
Qed.

Lemma zip_with_length (f : R -> R -> R) (u v : Np.vec) :
  length u = length v -> length (Np.zip_with f u v) = length u.
Proof.
  intros H. unfold Np.zip_with.
  rewrite length_map, length_combine, <- H. apply Nat.min_id.
Qed.

Lemma zip_with_nth (f : R -> R -> R) (u v : Np.vec) (i : nat) :
  length u = length v -> (i < length u)%nat ->
  nth i (Np.zip_with f u v) 0 = f (nth i u 0) (nth i v 0).
Proof.
  revert v i.
  induction u as [ | a u IH]; intros [ | b v] i Hlen Hi; simpl in *;
    try lia; try discriminate.
  destruct i as [ | i]; [ reflexivity | ].
  apply IH; lia.
Qed.

Lemma col_length (x : Np.array2) (j : nat) :
  length (Np.col x j) = length (Np.data x).
Proof. unfold Np.col. apply length_map. Qed.

Lemma col_nth (x : Np.array2) (i j : nat) :
  (i < length (Np.data x))%nat -> nth i (Np.col x j) 0 = Np.get x i j.
Proof.
  unfold Np.col, Np.get. generalize (Np.data x) as l.
  intros l. revert i.
  induction l as [ | r l IH]; intros [ | i] Hi; simpl in *;
    try lia; try reflexivity.
  apply IH. lia.
Qed.

Lemma update_length {A : Type} (l : list A) (i : nat) (v : A) :
  length (Np.update l i v) = length l.
Proof.
  revert i. induction l as [ | h l IH]; intros [ | i]; simpl; auto.
Qed.

Lemma update_nth_same {A : Type} (l : list A) (i : nat) (v d : A) :
  (i < length l)%nat -> nth i (Np.update l i v) d = v.
Proof.
  revert i. induction l as [ | h l IH]; intros [ | i] Hi; simpl in *;
    try lia; auto.
  apply IH. lia.
Qed.

Lemma update_nth_other {A : Type} (l : list A) (i j : nat) (v d : A) :
  i <> j -> nth j (Np.update l i v) d = nth j l d.
Proof.
  revert i j. induction l as [ | h l IH]; intros [ | i] [ | j] Hij; simpl;
    try reflexivity; try congruence.
  apply IH. congruence.
Qed.

Lemma update_Forall {A : Type} (P : A -> Prop) (l : list A) (i : nat) (v : A) :
  Forall P l -> P v -> Forall P (Np.update l i v).
Proof.
  intros Hl Hv. revert i.
  induction Hl as [ | h l Hh Hl IH]; intros [ | i]; simpl; auto.
Qed.

(** The transpose swaps the axes and moves entries without touching them. *)
Lemma T_shape (x : Np.array2) :
  Np.shape (Np.T x) = (snd (Np.shape x), fst (Np.shape x)).
Proof. reflexivity. Qed.

Lemma T_wf (x : Np.array2) : Np.wf x -> Np.wf (Np.T x).
Proof.
  intros [Hrows _]. split; simpl.
  - rewrite length_map, length_seq. reflexivity.
  - apply Forall_forall. intros c Hc.
    apply in_map_iff in Hc. destruct Hc as [j [<- _]].
    rewrite col_length. exact Hrows.
Qed.

Lemma T_get (x : Np.array2) (i j : nat) :
  Np.wf x -> (i < fst (Np.shape x))%nat -> (j < snd (Np.shape x))%nat ->
  Np.get (Np.T x) j i = Np.get x i j.
Proof.
  intros [Hrows _] Hi Hj. unfold Np.get at 1. unfold Np.T, Np.data at 1.
  rewrite (nth_indep _ [] (Np.col x 0)) by (rewrite length_map, length_seq; exact Hj).
  rewrite map_nth, seq_nth by exact Hj.
  apply col_nth. lia.
Qed.

End Arrays.

(** ** The primitives on arrays act entry by entry *)

Lemma nth_map_in_range (f : R -> R) (l : Np.vec) (i : nat) :
  (i < length l)%nat -> nth i (map f l) 0 = f (nth i l 0).
Proof.
  revert i. induction l as [ | a l IH]; intros [ | i] Hi; simpl in *;
    try lia; try reflexivity.
  apply IH. lia.
Qed.

Ltac fuse_maps :=
  unfold Np.add, Np.mul, Np.neg, Np.exp, Np.add_s, Np.sub_s, Np.mul_s,
    Np.div_s, Np.s_add, Np.s_sub, Np.s_mul;
  repeat (rewrite ?map_map; rewrite ?zip_with_map);
  apply map_ext; intros; ring.

Lemma qK_1d_elementwise (x : Np.vec) (domain : R * R) (ell : R) :
  _qK_1d x domain ell = map (fun xi => _qK_1d_scalar xi domain ell) x.
Proof.
  destruct domain as [a b]. unfold _qK_1d, _qK_1d_scalar. cbv zeta.
  fuse_maps.
Qed.

Lemma dqK_dx_1d_elementwise (x : Np.vec) (domain : R * R) (ell : R) :
  _dqK_dx_1d x domain ell = map (fun xi => _dqK_dx_1d_scalar xi domain ell) x.
Proof.
  destruct domain as [a b]. unfold _dqK_dx_1d, _dqK_dx_1d_scalar. cbv zeta.
  fuse_maps.
Qed.

(** ** The loop of [qK] *)

Section KernelMean.

Variable self : t.
Variable x2 : Np.array2.

Lemma qK_step_length (acc : Np.vec) (d : nat) :
  length acc = length (Np.data x2) ->
  length (qK_step self x2 acc d) = length (Np.data x2).
Proof.
  intros Hacc. unfold qK_step, Np.mul.
  rewrite zip_with_length; [ exact Hacc | ].
  rewrite qK_1d_elementwise, length_map, col_length. exact Hacc.
Qed.

Lemma qK_step_nth (acc : Np.vec) (d i : nat) :
  length acc = length (Np.data x2) -> (i < length (Np.data x2))%nat ->
  nth i (qK_step self x2 acc d) 0 = nth i acc 0 * factor self x2 i d.
Proof.
  intros Hacc Hi. unfold qK_step, Np.mul.
  rewrite zip_with_nth.
  - rewrite qK_1d_elementwise, nth_map_in_range by (rewrite col_length; exact Hi).
    rewrite col_nth by exact Hi. reflexivity.
  - rewrite qK_1d_elementwise, length_map, col_length. exact Hacc.
  - rewrite Hacc. exact Hi.
Qed.

Lemma fold_qK_step_entries (ds : list nat) (acc : Np.vec) :
  length acc = length (Np.data x2) ->
  length (fold_left (qK_step self x2) ds acc) = length (Np.data x2) /\
  forall i, (i < length (Np.data x2))%nat ->
    nth i (fold_left (qK_step self x2) ds acc) 0 =
    nth i acc 0 * Rprod (map (factor self x2 i) ds).
Proof.
  revert acc. induction ds as [ | d ds IH]; intros acc Hacc; simpl.
  - split; [ exact Hacc | intros; ring ].
  - destruct (IH (qK_step self x2 acc d) (qK_step_length acc d Hacc))
      as [Hlen Hnth].
    split; [ exact Hlen | ].
    intros i Hi. rewrite (Hnth i Hi), qK_step_nth by assumption. ring.
Qed.

Lemma qK_loop_in_range (skip : list Z) (dims : list nat) (acc : Np.vec) :
  (forall d, In d dims -> contains skip d = false ->
     (d < length (bounds (integral_bounds self)))%nat /\
     (d < length (lengthscales self))%nat) ->
  qK_loop self x2 skip dims acc =
  Ok (fold_left (qK_step self x2)
        (filter (fun d => negb (contains skip d)) dims) acc).
Proof.
  revert acc. induction dims as [ | dim rest IH]; intros acc Hin; simpl.
  - reflexivity.
  - destruct (contains skip dim) eqn:Hskip; simpl.
    + apply IH. intros d Hd. apply Hin. right. exact Hd.
    + destruct (Hin dim (or_introl eq_refl) Hskip) as [Hb Hl].
      rewrite (index_in_range _ _ (0, 0) Hb), (index_in_range _ _ 0 Hl).
      simpl. apply IH. intros d Hd. apply Hin. right. exact Hd.
Qed.

Lemma qK_loop_out_of_range (skip : list Z) (dims : list nat) (acc : Np.vec) :
  (exists d, In d dims /\ contains skip d = false /\
     ((length (bounds (integral_bounds self)) <= d)%nat \/
      (length (lengthscales self) <= d)%nat)) ->
  qK_loop self x2 skip dims acc = Raise IndexError.
Proof.
  revert acc. induction dims as [ | dim rest IH]; intros acc [d [Hd [Hs Hout]]].
  - destruct Hd.
  - simpl. destruct (contains skip dim) eqn:Hskip.
    + apply IH. exists d. destruct Hd as [-> | Hd]; [ congruence | auto ].
    + destruct (Nat.lt_ge_cases dim (length (bounds (integral_bounds self))))
        as [Hb | Hb]; [ | rewrite (index_out_of_range _ _ Hb); reflexivity ].
      rewrite (index_in_range _ _ (0, 0) Hb). simpl.
      destruct (Nat.lt_ge_cases dim (length (lengthscales self)))
        as [Hl | Hl]; [ | rewrite (index_out_of_range _ _ Hl); reflexivity ].
      rewrite (index_in_range _ _ 0 Hl). simpl.
      apply IH. exists d. destruct Hd as [-> | Hd]; [ lia | auto ].
Qed.

(** What [qK] returns when every column index is in range for the bounds
    and the lengthscales. *)
Lemma qK_in_range (skip : option (list Z)) (N D : nat) :
  Np.wf x2 -> Np.shape x2 = (N, D) ->
  (D <= length (bounds (integral_bounds self)))%nat ->
  (D <= length (lengthscales self))%nat ->
  exists r,
    qK self x2 skip = Ok r /\ Np.shape r = (1%nat, N) /\ Np.wf r /\
    forall i, (i < N)%nat ->
      Np.get r 0 i =
      variance self * Rprod (map (factor self x2 i) (kept (default_skip skip) D)).
Proof.
  intros [Hrows _] Hshape Hb Hl. rewrite Hshape in Hrows. simpl in Hrows.
  unfold qK. rewrite Hshape. simpl fst. simpl snd.
  rewrite qK_loop_in_range
    by (intros d Hd _; apply in_seq in Hd; lia).
  fold (kept (default_skip skip) D).
  assert (Hones : length (Np.ones N) = length (Np.data x2))
    by (unfold Np.ones; rewrite repeat_length; lia).
  destruct (fold_qK_step_entries (kept (default_skip skip) D) _ Hones)
    as [Hlen Hnth].
  eexists. split; [ reflexivity | ].
  split; [ simpl; rewrite Hlen, Hrows; reflexivity | ].
  split.
  - split; simpl; [ reflexivity | ].
    constructor; [ | constructor ].
    unfold Np.mul_s. rewrite length_map. reflexivity.
  - intros i Hi. unfold Np.get. simpl. unfold Np.mul_s.
    rewrite nth_map_in_range by (rewrite Hlen; lia).
    rewrite Hnth by lia.
    unfold Np.ones. rewrite nth_repeat_lt by exact Hi. ring.
Qed.

End KernelMean.

(** ** The skip set *)

Lemma contains_In (skip : list Z) (d : nat) :
  contains skip d = true <-> In (Z.of_nat d) skip.
Proof.
  unfold contains. rewrite existsb_exists. split.
  - intros [z [Hz Heq]]. apply Z.eqb_eq in Heq. subst z. exact Hz.
  - intros Hin. exists (Z.of_nat d). split; [ exact Hin | apply Z.eqb_refl ].
Qed.

Lemma kept_In (skip : list Z) (D d : nat) :
  In d (kept skip D) <-> (d < D)%nat /\ ~ In (Z.of_nat d) skip.
Proof.
  unfold kept. rewrite filter_In, in_seq, negb_true_iff.
  rewrite <- contains_In.
  destruct (contains skip d); intuition (try lia; try congruence).
Qed.

Lemma kept_nil (D : nat) : kept [] D = seq 0 D.
Proof.
  unfold kept. apply forallb_filter_id.
  apply forallb_forall. reflexivity.
Qed.

Lemma filter_ne_seq (d s n : nat) :
  (s <= d < s + n)%nat ->
  filter (fun d' => negb (Z.of_nat d' =? Z.of_nat d)%Z) (seq s n) =
  seq s (d - s) ++ seq (S d) (s + n - S d).
Proof.
  revert s. induction n as [ | n IH]; intros s Hd; [ lia | ].
  simpl seq at 1. simpl filter.
  destruct (Z.eqb_spec (Z.of_nat s) (Z.of_nat d)) as [Heq | Hne]; simpl.
  - apply Nat2Z.inj in Heq. subst s.
    rewrite Nat.sub_diag. simpl.
    replace (d + S n - S d)%nat with n by lia.
    apply forallb_filter_id, forallb_forall.
    intros y Hy. apply in_seq in Hy. apply negb_true_iff, Z.eqb_neq. lia.
  - assert (s < d)%nat by (assert (s <> d) by congruence; lia).
    rewrite IH by lia.
    replace (S s + n - S d)%nat with (s + S n - S d)%nat by lia.
    replace (d - s)%nat with (S (d - S s)) by lia.
    reflexivity.
Qed.

(** Skipping the single dimension [d] keeps the others in order. *)
Lemma kept_single (D d : nat) :
  (d < D)%nat -> kept [Z.of_nat d] D = seq 0 d ++ seq (S d) (D - S d).
Proof.
  intros Hd. unfold kept, contains. simpl existsb.
  rewrite (filter_ext _ (fun d' => negb (Z.of_nat d' =? Z.of_nat d)%Z)).
  - rewrite filter_ne_seq by lia. rewrite Nat.sub_0_r. reflexivity.
  - intros d'. rewrite orb_false_r. reflexivity.
Qed.

Lemma kept_all_skipped (skip : list Z) (D : nat) :
  (forall d, (d < D)%nat -> In (Z.of_nat d) skip) -> kept skip D = [].
Proof.
  intros Hall. destruct (kept skip D) as [ | d l] eqn:Hk; [ reflexivity | ].
  assert (Hin : In d (kept skip D)) by (rewrite Hk; left; reflexivity).
  apply kept_In in Hin. destruct Hin as [Hd Hnot].
  elim Hnot. apply Hall. exact Hd.
Qed.

(** ** The kernel mean *)

(** C1: for points of shape (N,D) and an engine of dimensionality D, qK
    with skip set S returns an array of shape (1,N) whose entry [0,i] is
    variance times the product, over the dimensions d not in S, of
    qK_1d(points[i,d], bounds[d], ell[d]).  [kept_nil] and [kept_single]
    give the dimensions for S empty and S = {d}. *)
Theorem qK_separable (self : t) (x2 : Np.array2) (skip : option (list Z))
    (N D : nat) :
  Np.wf x2 -> Np.shape x2 = (N, D) -> engine_dim self D ->
  exists r,
    qK self x2 skip = Ok r /\ Np.shape r = (1%nat, N) /\ Np.wf r /\
    forall i, (i < N)%nat ->
      Np.get r 0 i =
      variance self *
      Rprod (map (fun d => _qK_1d_scalar (Np.get x2 i d) (bound_at self d)
                             (ell_at self d))
               (kept (default_skip skip) D)).
Proof.
  intros Hwf Hshape [Hb Hl].
  apply qK_in_range; try assumption; lia.
Qed.

(** The theorem at the two-dimensional engine, two points and S = {1}. *)
Lemma qK_separable_witness :
  exists r,
    qK square_engine two_points (Some [1%Z]) = Ok r /\
    Np.shape r = (1%nat, 2%nat) /\ Np.wf r /\
    forall i, (i < 2)%nat ->
      Np.get r 0 i =
      variance square_engine *
      Rprod (map (fun d => _qK_1d_scalar (Np.get two_points i d)
                             (bound_at square_engine d)
                             (ell_at square_engine d))
               (kept [1%Z] 2)).
Proof.
  apply (qK_separable square_engine two_points (Some [1%Z]) 2 2).
  - split; [ reflexivity | repeat constructor ].
  - reflexivity.
  - split; reflexivity.
Defined.

(** C10: when the skip set contains every dimension index of the points,
    qK returns variance times the all-ones array of shape (1,N). *)
Theorem qK_all_skipped (self : t) (x2 : Np.array2) (skip : option (list Z))
    (N D : nat) :
  Np.shape x2 = (N, D) ->
  (forall d, (d < D)%nat -> In (Z.of_nat d) (default_skip skip)) ->
  exists r,
    qK self x2 skip = Ok r /\
    r = Np.mul2_s (Np.as_row (Np.ones N)) (variance self) /\
    Np.shape r = (1%nat, N) /\ Np.wf r /\
    forall i, (i < N)%nat -> Np.get r 0 i = variance self.
Proof.
  intros Hshape Hall.
  unfold qK. rewrite Hshape. simpl fst. simpl snd.
  rewrite qK_loop_in_range.
  - fold (kept (default_skip skip) D).
    rewrite (kept_all_skipped _ _ Hall). simpl.
    eexists. split; [ reflexivity | ]. split; [ reflexivity | ].
    split; [ simpl; unfold Np.ones; rewrite repeat_length; reflexivity | ].
    split.
    + split; simpl; [ reflexivity | ].
      constructor; [ | constructor ].
      unfold Np.mul_s. rewrite length_map. reflexivity.
    + intros i Hi. unfold Np.get. simpl. unfold Np.mul_s, Np.ones.
      rewrite nth_map_in_range by (rewrite repeat_length; exact Hi).
      rewrite nth_repeat_lt by exact Hi. ring.
  - intros d Hd Hskip. apply in_seq in Hd.
    assert (Hin : contains (default_skip skip) d = true)
      by (apply contains_In, Hall; lia).
    congruence.
Qed.

(** The theorem at a three-column point and S = [2, 0, 1], on an engine
    that has two dimensions only. *)
Lemma qK_all_skipped_witness :
  exists r,
    qK square_engine wide_point (Some [2%Z; 0%Z; 1%Z]) = Ok r /\
    r = Np.mul2_s (Np.as_row (Np.ones 1)) (variance square_engine) /\
    Np.shape r = (1%nat, 1%nat) /\ Np.wf r /\
    forall i, (i < 1)%nat -> Np.get r 0 i = variance square_engine.
Proof.
  apply (qK_all_skipped square_engine wide_point (Some [2%Z; 0%Z; 1%Z]) 1 3).
  - reflexivity.
  - intros d Hd. simpl.
    destruct d as [ | [ | [ | d]]]; simpl; auto. lia.
Defined.

(** ** The doubly integrated kernel *)

Lemma qKq_1d_factor (self : t) (d : nat) :
  _qKq_1d (bound_at self d) (ell_at self d) = qKq_factor self d.
Proof.
  unfold _qKq_1d, qKq_factor. destruct (bound_at self d) as [a b].
  reflexivity.
Qed.

Lemma qKq_loop_in_range (self : t) (dims : list nat) (acc : R) :
  (forall d, In d dims ->
     (d < length (bounds (integral_bounds self)))%nat /\
     (d < length (lengthscales self))%nat) ->
  qKq_loop self dims acc = Ok (acc * Rprod (map (qKq_factor self) dims)).
Proof.
  revert acc. induction dims as [ | dim rest IH]; intros acc Hin; simpl.
  - f_equal. ring.
  - destruct (Hin dim (or_introl eq_refl)) as [Hb Hl].
    rewrite (index_in_range _ _ (0, 0) Hb), (index_in_range _ _ 0 Hl).
    simpl. rewrite IH by (intros d Hd; apply Hin; right; exact Hd).
    fold (bound_at self dim). fold (ell_at self dim).
    rewrite qKq_1d_factor. f_equal. ring.
Qed.

Lemma Rprod_nonneg (l : list R) : Forall (fun v => 0 <= v) l -> 0 <= Rprod l.
Proof.
  induction 1 as [ | v l Hv Hl IH]; simpl; [ lra | ].
  apply Rmult_le_pos; assumption.
Qed.

Lemma qKq_factor_nonneg (self : t) (d : nat) :
  valid_params self -> (d < input_dim self)%nat -> 0 <= qKq_factor self d.
Proof.
  intros [Hb [Hl [_ Hlen]]] Hd. unfold input_dim, bounds_dim in Hd.
  rewrite <- qKq_1d_factor.
  assert (Hab : fst (bound_at self d) < snd (bound_at self d)).
  { rewrite Forall_forall in Hb. apply Hb. apply nth_In. exact Hd. }
  assert (Hell : 0 < ell_at self d).
  { rewrite Forall_forall in Hl. apply Hl. apply nth_In. lia. }
  destruct (bound_at self d) as [a b]. simpl in Hab.
  apply qKq_1d_nonneg; lra.
Qed.

(** C2: qKq() returns the scalar variance times the product, over the
    dimensions d = 0..D-1, of qKq_1d(bounds[d], lengthscales[d]), the
    factor being (2 ell/3) (2c - 3 ell + exp(-c/ell) (c + 3 ell)) with
    c = sqrt(3) (b - a). *)
Theorem qKq_product (self : t) (D : nat) :
  engine_dim self D ->
  qKq self = Ok (variance self * Rprod (map (qKq_factor self) (seq 0 D))) /\
  forall d, (d < D)%nat ->
    qKq_factor self d =
    _qKq_1d (nth d (bounds (integral_bounds self)) (0, 0))
            (nth d (lengthscales self) 0).
Proof.
  intros [Hb Hl]. split.
  - unfold qKq, input_dim, bounds_dim. rewrite Hb.
    rewrite qKq_loop_in_range by (intros d Hd; apply in_seq in Hd; lia).
    simpl. f_equal. ring.
  - intros d _. symmetry. apply qKq_1d_factor.
Qed.

(** The theorem at the two-dimensional engine. *)
Lemma qKq_product_witness :
  qKq square_engine =
  Ok (variance square_engine *
      Rprod (map (qKq_factor square_engine) (seq 0 2))) /\
  forall d, (d < 2)%nat ->
    qKq_factor square_engine d =
    _qKq_1d (nth d (bounds (integral_bounds square_engine)) (0, 0))
            (nth d (lengthscales square_engine) 0).
Proof. apply (qKq_product square_engine 2). split; reflexivity. Defined.

(** C5, over exact real arithmetic: for every ell > 0 and a <= b the factor
    (2 ell/3) (2c - 3 ell + exp(-c/ell) (c + 3 ell)), c = sqrt(3) (b - a),
    is non-negative, and for valid parameters qKq() returns a non-negative
    number.  [qKq_negative_in_doubles] below shows that rounding can make
    the value negative. *)
Theorem qKq_nonneg :
  (forall a b ell, 0 < ell -> a <= b -> 0 <= _qKq_1d (a, b) ell) /\
  (forall self, valid_params self -> exists v, qKq self = Ok v /\ 0 <= v).
Proof.
  split; [ intros a b ell; apply qKq_1d_nonneg | ].
  intros self [Hb [Hl [Hvar Hlen]]].
  unfold qKq.
  rewrite qKq_loop_in_range
    by (intros d Hd; apply in_seq in Hd;
        unfold input_dim, bounds_dim in Hd; lia).
  simpl. eexists. split; [ reflexivity | ].
  apply Rmult_le_pos; [ lra | ].
  rewrite Rmult_1_l. apply Rprod_nonneg.
  apply Forall_forall. intros v Hv.
  apply in_map_iff in Hv. destruct Hv as [d [<- Hd]].
  apply in_seq in Hd.
  apply qKq_factor_nonneg; [ repeat split; assumption | lia ].
Qed.

(** The theorem at a = 0, b = 2, ell = 1/2 and at the two-dimensional
    engine. *)
Lemma qKq_nonneg_witness :
  0 <= _qKq_1d (0, 2) (1 / 2) /\
  (exists v, qKq square_engine = Ok v /\ 0 <= v).
Proof.
  destruct qKq_nonneg as [H1d Hengine].
  split; [ apply H1d; lra | ].
  apply (Hengine square_engine).
  unfold valid_params, square_engine, variance, lengthscales.
  cbn [kern integral_bounds bounds kern_lengthscales kern_variance].
  split; [ | split; [ | split; [ lra | reflexivity ] ] ].
  - constructor; [ cbn [fst snd]; lra | ].
    constructor; [ cbn [fst snd]; lra | ]. constructor.
  - constructor; [ lra | ]. constructor; [ lra | ]. constructor.
Defined.

(** *** The same quantity in IEEE doubles *)

Lemma exp_neg_upper (t : R) : 0 <= t -> exp (- t) <= 1 - t + t * t.
Proof.
  intros Ht.
  pose proof (exp_ineq1_le t) as Hle.
  pose proof (exp_pos (- t)) as Hpos.
  assert (Hinv : exp (- t) * exp t = 1).
  { rewrite <- exp_plus. replace (- t + t) with 0 by ring. apply exp_0. }
  assert (H1 : exp (- t) * (1 + t) <= 1).
  { rewrite <- Hinv. apply Rmult_le_compat_l; lra. }
  assert (H3 : 0 <= t * t * t)
    by (apply Rmult_le_pos; [ apply Rmult_le_pos | ]; assumption).
  apply Rmult_le_reg_r with (1 + t); [ lra | ].
  apply Rle_trans with 1; [ exact H1 | ].
  replace ((1 - t + t * t) * (1 + t)) with (1 + t * t * t) by ring.
  lra.
Qed.

Lemma narrow_exp_arg_value :
  Double.to_R narrow_exp_arg =
  - (6500386142961635 / 38685626227668133590597632).
Proof. reflexivity. Qed.

Lemma narrow_exp_below_value :
  Double.to_R narrow_exp_below = 9007199253227502 / 9007199254740992.
Proof. reflexivity. Qed.

Lemma narrow_exp_above_value :
  Double.to_R narrow_exp_above = 9007199253227503 / 9007199254740992.
Proof. reflexivity. Qed.

(** The exact exponential of [narrow_exp_arg] lies strictly between the two
    adjacent doubles [narrow_exp_below] and [narrow_exp_above]. *)
Lemma narrow_exp_enclosed :
  Double.to_R narrow_exp_below < exp (Double.to_R narrow_exp_arg)
    < Double.to_R narrow_exp_above.
Proof.
  rewrite narrow_exp_arg_value, narrow_exp_below_value,
    narrow_exp_above_value.
  set (t := 6500386142961635 / 38685626227668133590597632).
  assert (Ht : 0 < t) by (unfold t; lra).
  split.
  - apply Rle_lt_trans with (1 + - t); [ unfold t; lra | ].
    apply exp_ineq1. lra.
  - apply Rle_lt_trans with (1 - t + t * t);
      [ apply exp_neg_upper; lra | unfold t; lra ].
Qed.

(** C5, counterexample: on the one-dimensional engine with domain
    (0, 1.25 * 2^-32), lengthscale 3 and variance 1 the parameters are
    valid, yet in IEEE doubles qKq() returns -2^-48 whenever [np.exp]
    returns either of the two doubles that enclose the exact exponential
    of the one argument it is called at. *)
Lemma qKq_negative_in_doubles :
  Double.valid_params narrow_engine = true /\
  (Double.to_R narrow_exp_below < exp (Double.to_R narrow_exp_arg)
     < Double.to_R narrow_exp_above /\
   next_up narrow_exp_below = narrow_exp_above) /\
  (forall np_exp : float -> float,
     np_exp narrow_exp_arg = narrow_exp_below \/
     np_exp narrow_exp_arg = narrow_exp_above ->
     Double.qKq np_exp narrow_engine = Ok (- 0x1p-48)%float) /\
  (- 0x1p-48 <? 0)%float = true.
Proof.
  split; [ reflexivity | ].
  split; [ split; [ exact narrow_exp_enclosed | reflexivity ] | ].
  split; [ | reflexivity ].
  intros np_exp Hexp.
  cbv in Hexp. cbv.
  destruct Hexp as [-> | ->]; reflexivity.
Qed.

(** ** The loop of [dqK_dx] *)

Section Gradient.

Variable self : t.
Variable x2 : Np.array2.
Variables N D : nat.
Hypothesis x2_wf : Np.wf x2.
Hypothesis x2_shape : Np.shape x2 = (N, D).
Hypothesis bounds_cover : (D <= length (bounds (integral_bounds self)))%nat.
Hypothesis lengthscales_cover : (D <= length (lengthscales self))%nat.

Lemma x2_rows : length (Np.data x2) = N.
Proof. destruct x2_wf as [H _]. rewrite x2_shape in H. exact H. Qed.

Lemma other_factors_in_range (d : nat) :
  exists q,
    qK self x2 (Some [Z.of_nat d]) = Ok q /\
    other_factors self x2 d = Np.row q 0 /\
    length (Np.row q 0) = N /\
    forall i, (i < N)%nat ->
      nth i (Np.row q 0) 0 =
      variance self * Rprod (map (factor self x2 i) (kept [Z.of_nat d] D)).
Proof.
  destruct (qK_in_range self x2 (Some [Z.of_nat d]) N D x2_wf x2_shape
              bounds_cover lengthscales_cover)
    as [q [Hq [Hshape [[Hrows Hcols] Hget]]]].
  exists q. split; [ exact Hq | ].
  split; [ unfold other_factors; rewrite Hq; reflexivity | ].
  split; [ | exact Hget ].
  rewrite Hshape in Hrows, Hcols. simpl in Hrows, Hcols.
  unfold Np.row. destruct (Np.data q) as [ | r0 rest]; [ discriminate | ].
  simpl. exact (Forall_inv Hcols).
Qed.

Lemma gradient_row_length (d : nat) : length (gradient_row self x2 d) = N.
Proof.
  destruct (other_factors_in_range d) as [q [_ [Hrow [Hlen _]]]].
  unfold gradient_row, Np.mul. rewrite Hrow.
  rewrite zip_with_length;
    rewrite dqK_dx_1d_elementwise, length_map, col_length, x2_rows; auto.
Qed.

Lemma gradient_row_nth (d i : nat) :
  (i < N)%nat ->
  nth i (gradient_row self x2 d) 0 =
  _dqK_dx_1d_scalar (Np.get x2 i d) (bound_at self d) (ell_at self d) *
  (variance self * Rprod (map (factor self x2 i) (kept [Z.of_nat d] D))).
Proof.
  intros Hi.
  destruct (other_factors_in_range d) as [q [_ [Hrow [Hlen Hnth]]]].
  unfold gradient_row, Np.mul. rewrite Hrow.
  assert (Hg : length (_dqK_dx_1d (Np.col x2 d) (bound_at self d)
                         (ell_at self d)) = N)
    by (rewrite dqK_dx_1d_elementwise, length_map, col_length; apply x2_rows).
  rewrite zip_with_nth by (rewrite Hg; auto).
  rewrite Hnth by exact Hi.
  rewrite dqK_dx_1d_elementwise, nth_map_in_range
    by (rewrite col_length, x2_rows; exact Hi).
  rewrite col_nth by (rewrite x2_rows; exact Hi).
  reflexivity.
Qed.

Lemma dqK_dx_loop_in_range (dims : list nat) (acc : Np.array2) :
  (forall d, In d dims -> (d < D)%nat) ->
  dqK_dx_loop self x2 dims acc = Ok (fold_left (dqK_dx_step self x2) dims acc).
Proof.
  revert acc. induction dims as [ | dim rest IH]; intros acc Hin; simpl.
  - reflexivity.
  - assert (Hd : (dim < D)%nat) by (apply Hin; left; reflexivity).
    rewrite (index_in_range _ _ (0, 0)), (index_in_range _ _ 0) by lia.
    simpl.
    destruct (other_factors_in_range dim) as [q [Hq [Hrow _]]].
    rewrite Hq. simpl.
    rewrite IH by (intros d Hd'; apply Hin; right; exact Hd').
    do 2 f_equal. unfold dqK_dx_step, gradient_row.
    rewrite Hrow. reflexivity.
Qed.

Lemma fold_dqK_dx_step_shape (dims : list nat) (acc : Np.array2) :
  Np.shape (fold_left (dqK_dx_step self x2) dims acc) = Np.shape acc /\
  length (Np.data (fold_left (dqK_dx_step self x2) dims acc)) =
  length (Np.data acc).
Proof.
  revert acc. induction dims as [ | dim rest IH]; intros acc; simpl.
  - split; reflexivity.
  - destruct (IH (dqK_dx_step self x2 acc dim)) as [Hs Hl].
    rewrite Hs, Hl. split; [ reflexivity | ].
    simpl. apply update_length.
Qed.

Lemma fold_dqK_dx_step_untouched (dims : list nat) (acc : Np.array2)
    (d : nat) :
  ~ In d dims ->
  Np.row (fold_left (dqK_dx_step self x2) dims acc) d = Np.row acc d.
Proof.
  revert acc. induction dims as [ | dim rest IH]; intros acc Hnot; simpl.
  - reflexivity.
  - rewrite IH by (intros Hd; apply Hnot; right; exact Hd).
    unfold Np.row, dqK_dx_step, Np.set_row. simpl.
    apply update_nth_other. intros ->. apply Hnot. left. reflexivity.
Qed.

Lemma fold_dqK_dx_step_stored (dims : list nat) (acc : Np.array2) (d : nat) :
  In d dims -> (d < length (Np.data acc))%nat ->
  Np.row (fold_left (dqK_dx_step self x2) dims acc) d = gradient_row self x2 d.
Proof.
  revert acc. induction dims as [ | dim rest IH]; intros acc Hin Hd; simpl.
  - destruct Hin.
  - destruct (in_dec Nat.eq_dec d rest) as [Hrest | Hrest].
    + apply IH; [ exact Hrest | ].
      simpl. rewrite update_length. exact Hd.
    + destruct Hin as [-> | Hin]; [ | contradiction ].
      rewrite fold_dqK_dx_step_untouched by exact Hrest.
      unfold Np.row, dqK_dx_step, Np.set_row. simpl.
      apply update_nth_same. exact Hd.
Qed.

Lemma fold_dqK_dx_step_columns (dims : list nat) (acc : Np.array2) :
  Forall (fun r => length r = N) (Np.data acc) ->
  Forall (fun r => length r = N)
    (Np.data (fold_left (dqK_dx_step self x2) dims acc)).
Proof.
  revert acc. induction dims as [ | dim rest IH]; intros acc Hacc; simpl.
  - exact Hacc.
  - apply IH. simpl. apply update_Forall; [ exact Hacc | ].
    apply gradient_row_length.
Qed.

(** What [dqK_dx] returns when every column index is in range for the
    bounds and the lengthscales. *)
Lemma dqK_dx_in_range :
  exists r,
    dqK_dx self x2 = Ok r /\ Np.shape r = (D, N) /\ Np.wf r /\
    forall d, (d < D)%nat -> Np.row r d = gradient_row self x2 d.
Proof.
  unfold dqK_dx. rewrite x2_shape. simpl fst. simpl snd.
  rewrite dqK_dx_loop_in_range by (intros d Hd; apply in_seq in Hd; lia).
  destruct (fold_dqK_dx_step_shape (seq 0 D) (Np.zeros2 D N)) as [Hs Hl].
  simpl in Hs, Hl. rewrite repeat_length in Hl.
  eexists. split; [ reflexivity | ]. split; [ exact Hs | ].
  split.
  - split; rewrite Hs; simpl; [ exact Hl | ].
    apply fold_dqK_dx_step_columns. simpl.
    apply Forall_forall. intros r Hr. apply repeat_spec in Hr. subst r.
    apply repeat_length.
  - intros d Hd. apply fold_dqK_dx_step_stored.
    + apply in_seq. lia.
    + simpl. rewrite repeat_length. exact Hd.
Qed.

End Gradient.

(** ** The gradient of the kernel mean *)

(** C3: for points of shape (N,D) and an engine of dimensionality D,
    dqK_dx returns an array of shape (D,N) whose row d is the elementwise
    product of dqK_dx_1d(points[:,d], bounds[d], ell[d]) and
    qK(points, skip=[d])[0,:]; entry [d,i] thus holds the variance once;
    for D = 1 entry [0,i] is dqK_dx_1d(points[i,0], ...) times variance. *)
Theorem dqK_dx_product_rule (self : t) (x2 : Np.array2) (N D : nat) :
  Np.wf x2 -> Np.shape x2 = (N, D) -> engine_dim self D ->
  exists r,
    dqK_dx self x2 = Ok r /\ Np.shape r = (D, N) /\ Np.wf r /\
    (forall d, (d < D)%nat ->
       exists q,
         qK self x2 (Some [Z.of_nat d]) = Ok q /\
         Np.row r d =
         Np.mul (_dqK_dx_1d (Np.col x2 d) (bound_at self d) (ell_at self d))
                (Np.row q 0)) /\
    (forall d i, (d < D)%nat -> (i < N)%nat ->
       Np.get r d i =
       _dqK_dx_1d_scalar (Np.get x2 i d) (bound_at self d) (ell_at self d) *
       (variance self *
        Rprod (map (fun d' => _qK_1d_scalar (Np.get x2 i d')
                                (bound_at self d') (ell_at self d'))
                 (kept [Z.of_nat d] D)))) /\
    (D = 1%nat ->
     forall i, (i < N)%nat ->
       Np.get r 0 i =
       _dqK_dx_1d_scalar (Np.get x2 i 0) (bound_at self 0) (ell_at self 0) *
       variance self).
Proof.
  intros Hwf Hshape [Hb Hl].
  assert (Hb' : (D <= length (bounds (integral_bounds self)))%nat) by lia.
  assert (Hl' : (D <= length (lengthscales self))%nat) by lia.
  destruct (dqK_dx_in_range self x2 N D Hwf Hshape Hb' Hl')
    as [r [Hr [Hs [Hr_wf Hrow]]]].
  assert (Hget : forall d i, (d < D)%nat -> (i < N)%nat ->
     Np.get r d i =
     _dqK_dx_1d_scalar (Np.get x2 i d) (bound_at self d) (ell_at self d) *
     (variance self * Rprod (map (factor self x2 i) (kept [Z.of_nat d] D)))).
  { intros d i Hd Hi.
    change (Np.get r d i) with (nth i (Np.row r d) 0).
    rewrite (Hrow d Hd).
    apply (gradient_row_nth self x2 N D Hwf Hshape Hb' Hl'). exact Hi. }
  exists r. repeat split; try assumption; try apply Hr_wf.
  - intros d Hd.
    destruct (other_factors_in_range self x2 N D Hwf Hshape Hb' Hl' d)
      as [q [Hq [Hother _]]].
    exists q. split; [ exact Hq | ].
    rewrite (Hrow d Hd). unfold gradient_row. rewrite Hother. reflexivity.
  - intros -> i Hi. rewrite (Hget 0%nat i) by lia.
    change (Z.of_nat 0) with 0%Z.
    change (kept [0%Z] 1) with (@nil nat). simpl. ring.
Qed.

(** The theorem at the two-dimensional engine and two points. *)
Lemma dqK_dx_product_rule_witness :
  exists r,
    dqK_dx square_engine two_points = Ok r /\
    Np.shape r = (2%nat, 2%nat).
Proof.
  destruct (dqK_dx_product_rule square_engine two_points 2 2)
    as [r [Hr [Hs _]]].
  - split; [ reflexivity | repeat constructor ].
  - reflexivity.
  - split; reflexivity.
  - exists r. split; assumption.
Defined.

(** ** The transposed counterparts *)

(** C6: Kq(points) is the transpose of qK(points), of shape (N,1) against
    (1,N) with the same entries, and dKq_dx(points) is the transpose of
    dqK_dx(points), of shape (N,D) against (D,N) with the same entries. *)
Theorem transpose_identity (self : t) (x : Np.array2) (N D : nat) :
  Np.wf x -> Np.shape x = (N, D) -> engine_dim self D ->
  exists q g,
    qK self x None = Ok q /\
    QuadratureMatern32.Kq self x = Ok (Np.T q) /\
    Np.shape q = (1%nat, N) /\ Np.shape (Np.T q) = (N, 1%nat) /\
    (forall i, (i < N)%nat -> Np.get (Np.T q) i 0 = Np.get q 0 i) /\
    dqK_dx self x = Ok g /\
    QuadratureMatern32.dKq_dx self x = Ok (Np.T g) /\
    Np.shape g = (D, N) /\ Np.shape (Np.T g) = (N, D) /\
    (forall i d, (i < N)%nat -> (d < D)%nat ->
       Np.get (Np.T g) i d = Np.get g d i).
Proof.
  intros Hwf Hshape [Hb Hl].
  assert (Hb' : (D <= length (bounds (integral_bounds self)))%nat) by lia.
  assert (Hl' : (D <= length (lengthscales self))%nat) by lia.
  destruct (qK_in_range self x None N D Hwf Hshape Hb' Hl')
    as [q [Hq [Hqs [Hq_wf _]]]].
  destruct (dqK_dx_in_range self x N D Hwf Hshape Hb' Hl')
    as [g [Hg [Hgs [Hg_wf _]]]].
  exists q, g.
  split; [ exact Hq | ].
  split; [ unfold QuadratureMatern32.Kq; simpl; rewrite Hq; reflexivity | ].
  split; [ exact Hqs | ].
  split; [ rewrite T_shape, Hqs; reflexivity | ].
  split; [ intros i Hi; apply T_get; [ exact Hq_wf | | ]; rewrite Hqs; simpl; lia | ].
  split; [ exact Hg | ].
  split; [ unfold QuadratureMatern32.dKq_dx; simpl; rewrite Hg; reflexivity | ].
  split; [ exact Hgs | ].
  split; [ rewrite T_shape, Hgs; reflexivity | ].
  intros i d Hi Hd. apply T_get; [ exact Hg_wf | | ]; rewrite Hgs; simpl; lia.
Qed.

(** The theorem at the two-dimensional engine and two points. *)
Lemma transpose_identity_witness :
  exists q g,
    qK square_engine two_points None = Ok q /\
    QuadratureMatern32.Kq square_engine two_points = Ok (Np.T q) /\
    dqK_dx square_engine two_points = Ok g /\
    QuadratureMatern32.dKq_dx square_engine two_points = Ok (Np.T g).
Proof.
  destruct (transpose_identity square_engine two_points 2 2)
    as [q [g [Hq [HKq [_ [_ [_ [Hg [HdKq _]]]]]]]]].
  - split; [ reflexivity | repeat constructor ].
  - reflexivity.
  - split; reflexivity.
  - exists q, g. repeat split; assumption.
Defined.

(** ** The general variant *)

(** C8: on the general variant qK, qKq and dqK_dx raise
    NotImplementedError for every input and return no value; the error is
    not the one a failing computation raises. *)
Theorem general_variant_not_implemented (M : Type)
    (self : QuadratureMatern32.t M) (x2 : Np.array2) :
  QuadratureMatern32.qK self x2 = Raise NotImplementedError /\
  QuadratureMatern32.qKq self = Raise NotImplementedError /\
  QuadratureMatern32.dqK_dx self x2 = Raise NotImplementedError /\
  (forall r, QuadratureMatern32.qK self x2 <> Ok r) /\
  (forall v, QuadratureMatern32.qKq self <> Ok v) /\
  (forall r, QuadratureMatern32.dqK_dx self x2 <> Ok r) /\
  NotImplementedError <> IndexError.
Proof.
  repeat split; try reflexivity; intros; discriminate.
Qed.

(** ** Points whose column count is not the engine's dimensionality *)

Lemma qK_out_of_range (self : t) (x2 : Np.array2) (skip : option (list Z)) :
  (exists d, (d < snd (Np.shape x2))%nat /\
     ~ In (Z.of_nat d) (default_skip skip) /\
     ((length (bounds (integral_bounds self)) <= d)%nat \/
      (length (lengthscales self) <= d)%nat)) ->
  qK self x2 skip = Raise IndexError.
Proof.
  intros [d [Hd [Hnot Hout]]]. unfold qK.
  rewrite qK_loop_out_of_range; [ reflexivity | ].
  exists d. split; [ apply in_seq; lia | ]. split; [ | exact Hout ].
  destruct (contains (default_skip skip) d) eqn:Hc; [ | reflexivity ].
  apply contains_In in Hc. contradiction.
Qed.

Lemma dqK_dx_out_of_range (self : t) (x2 : Np.array2) :
  ((length (bounds (integral_bounds self)) < snd (Np.shape x2))%nat \/
   (length (lengthscales self) < snd (Np.shape x2))%nat) ->
  dqK_dx self x2 = Raise IndexError.
Proof.
  intros Hshort. unfold dqK_dx.
  destruct (snd (Np.shape x2)) as [ | D'] eqn:HD; [ lia | ].
  simpl seq. simpl dqK_dx_loop.
  destruct (Nat.lt_ge_cases 0 (length (bounds (integral_bounds self))))
    as [Hb | Hb]; [ | rewrite (index_out_of_range _ _ Hb); reflexivity ].
  rewrite (index_in_range _ _ (0, 0) Hb). simpl bind.
  destruct (Nat.lt_ge_cases 0 (length (lengthscales self)))
    as [Hl | Hl]; [ | rewrite (index_out_of_range _ _ Hl); reflexivity ].
  rewrite (index_in_range _ _ 0 Hl). simpl bind.
  rewrite qK_out_of_range; [ reflexivity | ].
  exists (Nat.min (length (bounds (integral_bounds self)))
                  (length (lengthscales self))).
  rewrite HD. split; [ lia | ]. split; [ | lia ].
  simpl. intros [Heq | []]. lia.
Qed.

(** C7, counterexample: a point with one column on the two-dimensional
    engine; qK raises nothing and returns the factor of dimension 0 alone,
    times variance. *)
Lemma qK_fewer_columns_returns :
  snd (Np.shape half_point) <>
    length (bounds (integral_bounds square_engine)) /\
  snd (Np.shape half_point) <> length (lengthscales square_engine) /\
  exists r,
    qK square_engine half_point None = Ok r /\
    Np.get r 0 0 = variance square_engine * _qK_1d_scalar (1 / 2) (0, 1) 1.
Proof.
  split; [ simpl; lia | ]. split; [ simpl; lia | ].
  destruct (qK_in_range square_engine half_point None 1 1)
    as [r [Hr [_ [_ Hget]]]].
  - split; [ reflexivity | repeat constructor ].
  - reflexivity.
  - simpl. lia.
  - simpl. lia.
  - exists r. split; [ exact Hr | ].
    rewrite (Hget 0%nat) by lia.
    change (kept (default_skip None) 1) with [0%nat].
    unfold Rprod. cbn [map fold_right]. rewrite Rmult_1_r.
    reflexivity.
Qed.

(** C7, as the code has it: with points of shape (N,D), qK raises
    IndexError when some column index that is not skipped is out of range
    for the bounds or the lengthscales, and dqK_dx raises IndexError when
    D exceeds the number of bound pairs or of lengthscales; when D is at
    most both, neither raises, and qK returns variance times the product
    over the first D dimensions that are not skipped. *)
Theorem qK_dimension_mismatch (self : t) (x2 : Np.array2)
    (skip : option (list Z)) (N D : nat) :
  Np.wf x2 -> Np.shape x2 = (N, D) ->
  ((exists d, (d < D)%nat /\ ~ In (Z.of_nat d) (default_skip skip) /\
      ((length (bounds (integral_bounds self)) <= d)%nat \/
       (length (lengthscales self) <= d)%nat)) ->
   qK self x2 skip = Raise IndexError) /\
  (((length (bounds (integral_bounds self)) < D)%nat \/
    (length (lengthscales self) < D)%nat) ->
   dqK_dx self x2 = Raise IndexError) /\
  ((D <= length (bounds (integral_bounds self)))%nat ->
   (D <= length (lengthscales self))%nat ->
   (exists r,
      qK self x2 skip = Ok r /\ Np.shape r = (1%nat, N) /\
      forall i, (i < N)%nat ->
        Np.get r 0 i =
        variance self *
        Rprod (map (fun d => _qK_1d_scalar (Np.get x2 i d) (bound_at self d)
                               (ell_at self d))
                 (kept (default_skip skip) D))) /\
   (exists g, dqK_dx self x2 = Ok g /\ Np.shape g = (D, N))).
Proof.
  intros Hwf Hshape.
  assert (HD : snd (Np.shape x2) = D) by (rewrite Hshape; reflexivity).
  split; [ | split ].
  - intros Hex. apply qK_out_of_range. rewrite HD. exact Hex.
  - intros Hshort. apply dqK_dx_out_of_range. rewrite HD. exact Hshort.
  - intros Hb Hl. split.
    + destruct (qK_in_range self x2 skip N D Hwf Hshape Hb Hl)
        as [r [Hr [Hs [_ Hget]]]].
      exists r. repeat split; assumption.
    + destruct (dqK_dx_in_range self x2 N D Hwf Hshape Hb Hl)
        as [g [Hg [Hs _]]].
      exists g. split; assumption.
Qed.

(** The theorem at a three-column point and at a one-column point, both
    on the two-dimensional engine. *)
Lemma qK_dimension_mismatch_witness :
  qK square_engine wide_point None = Raise IndexError /\
  dqK_dx square_engine wide_point = Raise IndexError /\
  (exists r, qK square_engine half_point None = Ok r) /\
  (exists g, dqK_dx square_engine half_point = Ok g).
Proof.
  destruct (qK_dimension_mismatch square_engine wide_point None 1 3)
    as [Hwide_qK [Hwide_dqK _]].
  { split; [ reflexivity | repeat constructor ]. }
  { reflexivity. }
  destruct (qK_dimension_mismatch square_engine half_point None 1 1)
    as [_ [_ Hhalf]].
  { split; [ reflexivity | repeat constructor ]. }
  { reflexivity. }
  destruct Hhalf as [[r [Hr _]] [g [Hg _]]]; [ simpl; lia | simpl; lia | ].
  split; [ | split; [ | split ] ].
  - apply Hwide_qK. exists 2%nat. split; [ lia | ].
    split; [ simpl; tauto | left; simpl; lia ].
  - apply Hwide_dqK. left. simpl. lia.
  - exists r. exact Hr.
  - exists g. exact Hg.
Defined.

(** ** The one-dimensional engine at x = 1/2 *)

Example qK_unit_engine_half :
  exists r,
    qK unit_engine half_point None = Ok r /\
    Np.get r 0 0 = _qK_1d_scalar (1 / 2) (0, 1) 1.
Proof.
  destruct (qK_in_range unit_engine half_point None 1 1)
    as [r [Hr [_ [_ Hget]]]].
  - split; [ reflexivity | repeat constructor ].
  - reflexivity.
  - simpl. lia.
  - simpl. lia.
  - exists r. split; [ exact Hr | ].
    rewrite (Hget 0%nat) by lia.
    unfold Rprod. cbn [default_skip kept seq filter contains existsb negb
                       map fold_right].
    unfold factor, variance, unit_engine. cbn [kern kern_variance].
    rewrite Rmult_1_l, Rmult_1_r. reflexivity.
Qed.

Example qKq_unit_engine : qKq unit_engine = Ok (_qKq_1d (0, 1) 1).
Proof.
  unfold qKq. rewrite qKq_loop_in_range
    by (intros d Hd; apply in_seq in Hd;
        change (input_dim unit_engine) with 1%nat in Hd;
        change (length (bounds (integral_bounds unit_engine))) with 1%nat;
        change (length (lengthscales unit_engine)) with 1%nat; lia).
  cbn [bind]. f_equal. unfold Rprod, input_dim, bounds_dim, variance, unit_engine.
  cbn [kern kern_variance integral_bounds bounds length seq map fold_right].
  rewrite <- qKq_1d_factor.
  change (bound_at _ 0) with (0, 1). change (ell_at _ 0) with 1.
  rewrite !Rmult_1_l, Rmult_1_r. reflexivity.
Qed.

(** * Further properties of the module *)

(** ** The one-dimensional primitives, continued *)

(** The derivative of the scalar [_qK_1d], for any non-zero lengthscale. *)
Lemma qK_1d_derivative (a b ell x : R) :
  ell <> 0 ->
  derivable_pt_lim (fun y => _qK_1d_scalar y (a, b) ell) x
    (_dqK_dx_1d_scalar x (a, b) ell).
Proof.
  intros Hell.
  pose proof sqrt3_pos as Hs.
  unfold _qK_1d_scalar, _dqK_dx_1d_scalar. cbv zeta.
  set (s3 := sqrt 3) in *.
  set (k := s3 / ell).
  assert (Hb : forall y, s3 * (y - b) / ell = k * y + - k * b)
    by (intros y; unfold k; field; exact Hell).
  assert (Ha : forall y, s3 * (a - y) / ell = - k * y + k * a)
    by (intros y; unfold k; field; exact Hell).
  apply derivable_pt_lim_ext with
    (f := fun y => 4 * ell / s3
                   - exp (k * y + - k * b) * (-1 * y + (b + 2 * ell / s3))
                   - exp (- k * y + k * a) * (1 * y + (2 * ell / s3 - a))).
  { intros y. rewrite Hb, Ha. ring. }
  rewrite Hb, Ha.
  replace (exp (k * x + - k * b) * (-1 + k * (x - b)) +
           exp (- k * x + k * a) * (1 - k * (a - x)))
    with (0 - (k * exp (k * x + - k * b) * (-1 * x + (b + 2 * ell / s3)) +
               exp (k * x + - k * b) * -1) -
          (- k * exp (- k * x + k * a) * (1 * x + (2 * ell / s3 - a)) +
           exp (- k * x + k * a) * 1))
    by (unfold k; field; split; lra).
  exact (derivable_pt_lim_minus _ _ x _ _
           (derivable_pt_lim_minus _ _ x _ _
              (derivable_pt_lim_const (4 * ell / s3) x)
              (derivable_pt_lim_exp_times_affine k (- k * b) (-1)
                 (b + 2 * ell / s3) x))
           (derivable_pt_lim_exp_times_affine (- k) (k * a) 1
              (2 * ell / s3 - a) x)).
Qed.

(** For t > 0 the quantity exp(-t) (t + 2) stays strictly below 2. *)
Lemma qKq_shape'_pos (t : R) : 0 < t -> 0 < qKq_shape' t.
Proof.
  intros Ht. unfold qKq_shape'.
  assert (Hlt : 1 + t < exp t) by (apply exp_ineq1; lra).
  pose proof (exp_pos (- t)) as Hpos.
  assert (Hinv : exp (- t) * exp t = 1).
  { rewrite <- exp_plus. replace (- t + t) with 0 by ring. apply exp_0. }
  assert (Hb : exp (- t) * (t + 2) < exp (- t) * (2 * exp t)).
  { apply Rmult_lt_compat_l; lra. }
  replace (exp (- t) * (2 * exp t)) with 2 in Hb
    by (rewrite <- (Rmult_1_r 2) at 1; rewrite <- Hinv; ring).
  lra.
Qed.

(** [_qK_1d] written with the two scaled distances to the ends of the
    domain. *)
Lemma qK_1d_as_shape (a b ell x : R) :
  0 < ell ->
  _qK_1d_scalar x (a, b) ell =
  ell / sqrt 3 * (qKq_shape' (sqrt 3 * (b - x) / ell) +
                  qKq_shape' (sqrt 3 * (x - a) / ell)).
Proof.
  intros Hell. pose proof sqrt3_pos as Hs.
  unfold _qK_1d_scalar, qKq_shape'. cbv zeta.
  replace (- (sqrt 3 * (b - x) / ell)) with (sqrt 3 * (x - b) / ell)
    by (field; lra).
  replace (- (sqrt 3 * (x - a) / ell)) with (sqrt 3 * (a - x) / ell)
    by (field; lra).
  field. split; lra.
Qed.

Lemma qK_1d_pos_inside (a b ell x : R) :
  0 < ell -> a < b -> a <= x <= b -> 0 < _qK_1d_scalar x (a, b) ell.
Proof.
  intros Hell Hab [Hax Hxb]. pose proof sqrt3_pos as Hs.
  assert (Hk : 0 < ell / sqrt 3)
    by (apply Rmult_lt_0_compat; [ lra | apply Rinv_0_lt_compat; lra ]).
  assert (Hscale : forall w, 0 <= w -> 0 <= sqrt 3 * w / ell).
  { intros w Hw. apply Rmult_le_pos;
      [ apply Rmult_le_pos; lra | left; apply Rinv_0_lt_compat; lra ]. }
  assert (Hscale' : forall w, 0 < w -> 0 < sqrt 3 * w / ell).
  { intros w Hw. apply Rmult_lt_0_compat;
      [ apply Rmult_lt_0_compat; lra | apply Rinv_0_lt_compat; lra ]. }
  rewrite qK_1d_as_shape by exact Hell.
  apply Rmult_lt_0_compat; [ exact Hk | ].
  pose proof (qKq_shape'_nonneg _ (Hscale (b - x) ltac:(lra))) as Hu.
  pose proof (qKq_shape'_nonneg _ (Hscale (x - a) ltac:(lra))) as Hv.
  destruct (Rle_lt_or_eq_dec _ _ Hxb) as [Hlt | Heq].
  - pose proof (qKq_shape'_pos _ (Hscale' (b - x) ltac:(lra))). lra.
  - pose proof (qKq_shape'_pos _ (Hscale' (x - a) ltac:(lra))). lra.
Qed.

(** X1: inside the domain the 1-D kernel mean is strictly positive and
    strictly below 4 ell / sqrt(3), the integral of the kernel over the
    whole line. *)
Theorem qK_1d_bounds (a b ell x : R) :
  0 < ell -> a < b -> a <= x <= b ->
  0 < _qK_1d_scalar x (a, b) ell < 4 * ell / sqrt 3.
Proof.
  intros Hell Hab [Hax Hxb]. pose proof sqrt3_pos as Hs.
  assert (Hk : 0 < ell / sqrt 3)
    by (apply Rmult_lt_0_compat; [ lra | apply Rinv_0_lt_compat; lra ]).
  split; [ apply qK_1d_pos_inside; [ | | split ]; assumption | ].
  unfold _qK_1d_scalar. cbv zeta.
  assert (H2 : 0 < 2 * ell / sqrt 3).
  { replace (2 * ell / sqrt 3) with (2 * (ell / sqrt 3)) by (field; lra).
    lra. }
  pose proof (exp_pos (sqrt 3 * (x - b) / ell)) as Hb.
  pose proof (exp_pos (sqrt 3 * (a - x) / ell)) as Ha.
  assert (0 < exp (sqrt 3 * (x - b) / ell) * (b + 2 * ell / sqrt 3 - x))
    by (apply Rmult_lt_0_compat; lra).
  assert (0 < exp (sqrt 3 * (a - x) / ell) * (x + 2 * ell / sqrt 3 - a))
    by (apply Rmult_lt_0_compat; lra).
  lra.
Qed.

(** The theorem at a = 0, b = 1, ell = 1, x = 1 (an end of the domain). *)
Lemma qK_1d_bounds_witness :
  0 < _qK_1d_scalar 1 (0, 1) 1 < 4 * 1 / sqrt 3.
Proof. apply qK_1d_bounds; lra. Defined.

(** X2: the 1-D gradient changes sign under reflection of the evaluation
    point through the midpoint of the domain, and vanishes at the
    midpoint. *)
Theorem dqK_dx_1d_reflection (a b ell x : R) :
  0 < ell ->
  _dqK_dx_1d_scalar (a + b - x) (a, b) ell = - _dqK_dx_1d_scalar x (a, b) ell /\
  _dqK_dx_1d_scalar ((a + b) / 2) (a, b) ell = 0.
Proof.
  intros _.
  assert (Hrefl : forall y,
    _dqK_dx_1d_scalar (a + b - y) (a, b) ell =
    - _dqK_dx_1d_scalar y (a, b) ell).
  { intros y. unfold _dqK_dx_1d_scalar. cbv zeta.
    replace (a + b - y - b) with (a - y) by ring.
    replace (a - (a + b - y)) with (y - b) by ring.
    ring. }
  split; [ apply Hrefl | ].
  pose proof (Hrefl ((a + b) / 2)) as Hmid.
  replace (a + b - (a + b) / 2) with ((a + b) / 2) in Hmid by field.
  lra.
Qed.

(** The theorem at a = 0, b = 1, ell = 1/2, x = 1/4. *)
Lemma dqK_dx_1d_reflection_witness :
  _dqK_dx_1d_scalar (0 + 1 - 1 / 4) (0, 1) (1 / 2) =
    - _dqK_dx_1d_scalar (1 / 4) (0, 1) (1 / 2) /\
  _dqK_dx_1d_scalar ((0 + 1) / 2) (0, 1) (1 / 2) = 0.
Proof. apply dqK_dx_1d_reflection; lra. Defined.

(** X3, over exact real arithmetic: the three closed forms are stationary:
    shifting the domain and the evaluation point by the same h changes
    nothing. *)
Theorem primitives_translation_invariant (a b ell x h : R) :
  0 < ell ->
  _qK_1d_scalar (x + h) (a + h, b + h) ell = _qK_1d_scalar x (a, b) ell /\
  _dqK_dx_1d_scalar (x + h) (a + h, b + h) ell =
    _dqK_dx_1d_scalar x (a, b) ell /\
  _qKq_1d (a + h, b + h) ell = _qKq_1d (a, b) ell.
Proof.
  intros _.
  unfold _qK_1d_scalar, _dqK_dx_1d_scalar, _qKq_1d. cbv zeta.
  replace (x + h - (b + h)) with (x - b) by ring.
  replace (a + h - (x + h)) with (a - x) by ring.
  replace (b + h - (a + h)) with (b - a) by ring.
  repeat split; ring.
Qed.

(** The theorem at a = 0, b = 1, ell = 2, x = 1/3, h = 5. *)
Lemma primitives_translation_invariant_witness :
  _qK_1d_scalar (1 / 3 + 5) (0 + 5, 1 + 5) 2 = _qK_1d_scalar (1 / 3) (0, 1) 2 /\
  _dqK_dx_1d_scalar (1 / 3 + 5) (0 + 5, 1 + 5) 2 =
    _dqK_dx_1d_scalar (1 / 3) (0, 1) 2 /\
  _qKq_1d (0 + 5, 1 + 5) 2 = _qKq_1d (0, 1) 2.
Proof. apply primitives_translation_invariant; lra. Defined.

Lemma sqrt3_sqr : sqrt 3 * sqrt 3 = 3.
Proof. apply sqrt_sqrt. lra. Qed.

Lemma qKq_shape_monotone (t1 t2 : R) :
  0 <= t1 -> t1 <= t2 -> qKq_shape t1 <= qKq_shape t2.
Proof.
  intros H1 [Hlt | <-]; [ | lra ].
  destruct (MVT_cor2 qKq_shape qKq_shape' t1 t2 Hlt) as [c [Heq [Hc1 Hc2]]].
  { intros; apply qKq_shape_derivative. }
  assert (Hd : 0 <= qKq_shape' c) by (apply qKq_shape'_nonneg; lra).
  assert (Hm : 0 <= qKq_shape' c * (t2 - t1)) by (apply Rmult_le_pos; lra).
  lra.
Qed.

Lemma qKq_shape_upper (t : R) : 0 <= t -> qKq_shape t <= 2 * t.
Proof.
  intros Ht. unfold qKq_shape.
  pose proof (exp_ineq1_le t) as Hle.
  pose proof (exp_pos (- t)) as Hpos.
  assert (Hinv : exp (- t) * exp t = 1).
  { rewrite <- exp_plus. replace (- t + t) with 0 by ring. apply exp_0. }
  assert (Hb : exp (- t) * (t + 3) <= exp (- t) * (3 * exp t)).
  { apply Rmult_le_compat_l; lra. }
  replace (exp (- t) * (3 * exp t)) with 3 in Hb
    by (rewrite <- (Rmult_1_r 3) at 1; rewrite <- Hinv; ring).
  lra.
Qed.

(** X4, over exact real arithmetic: the closed form of the 1-D kernel
    variance vanishes on a domain of zero width, does not decrease when the
    domain is widened, and is at most 4 ell / sqrt(3) times the width. *)
Theorem qKq_1d_width (a b b' ell : R) :
  0 < ell -> a <= b -> b <= b' ->
  _qKq_1d (a, a) ell = 0 /\
  _qKq_1d (a, b) ell <= _qKq_1d (a, b') ell /\
  _qKq_1d (a, b) ell <= 4 * ell / sqrt 3 * (b - a).
Proof.
  intros Hell Hab Hbb'. pose proof sqrt3_pos as Hs.
  assert (Hl2 : 0 < 2 * ell * ell / 3).
  { assert (0 < ell * ell) by (apply Rmult_lt_0_compat; assumption). lra. }
  assert (Hscale : forall w, 0 <= w -> 0 <= sqrt 3 * w / ell).
  { intros w Hw. apply Rmult_le_pos;
      [ apply Rmult_le_pos; lra | left; apply Rinv_0_lt_compat; lra ]. }
  split; [ | split ].
  - rewrite qKq_1d_as_shape by exact Hell.
    replace (sqrt 3 * (a - a) / ell) with 0 by (field; lra).
    rewrite qKq_shape_0. ring.
  - rewrite !qKq_1d_as_shape by exact Hell.
    apply Rmult_le_compat_l; [ lra | ].
    apply qKq_shape_monotone; [ apply Hscale; lra | ].
    unfold Rdiv. apply Rmult_le_compat_r;
      [ left; apply Rinv_0_lt_compat; lra | ].
    apply Rmult_le_compat_l; lra.
  - rewrite qKq_1d_as_shape by exact Hell.
    pose proof (qKq_shape_upper _ (Hscale (b - a) ltac:(lra))) as Hup.
    apply Rle_trans with (2 * ell * ell / 3 * (2 * (sqrt 3 * (b - a) / ell))).
    + apply Rmult_le_compat_l; lra.
    + right. rewrite <- sqrt3_sqr at 1. field. split; lra.
Qed.

(** The theorem at a = 0, b = 1, b' = 3, ell = 1/2. *)
Lemma qKq_1d_width_witness :
  _qKq_1d (0, 0) (1 / 2) = 0 /\
  _qKq_1d (0, 1) (1 / 2) <= _qKq_1d (0, 3) (1 / 2) /\
  _qKq_1d (0, 1) (1 / 2) <= 4 * (1 / 2) / sqrt 3 * (1 - 0).
Proof. apply qKq_1d_width; lra. Defined.

Lemma qK_1d_primitive_derivative (a b ell x : R) :
  0 < ell ->
  derivable_pt_lim (fun y => qK_1d_primitive y (a, b) ell) x
    (_qK_1d_scalar x (a, b) ell).
Proof.
  intros Hell. pose proof sqrt3_pos as Hs.
  unfold qK_1d_primitive, _qK_1d_scalar. cbv zeta.
  set (s3 := sqrt 3) in *.
  set (k := s3 / ell).
  assert (Hk : 0 < k)
    by (apply Rmult_lt_0_compat; [ lra | apply Rinv_0_lt_compat; lra ]).
  replace (s3 * (x - b) / ell) with (k * x + - k * b)
    by (unfold k; field; lra).
  replace (s3 * (a - x) / ell) with (- k * x + k * a)
    by (unfold k; field; lra).
  pose proof (derivable_pt_lim_plus _ _ x _ _
    (derivable_pt_lim_minus _ _ x _ _
       (derivable_pt_lim_affine (4 * ell / s3) 0 x)
       (derivable_pt_lim_exp_times_affine k (- k * b) (- / k)
          (3 / (k * k) + b / k) x))
    (derivable_pt_lim_exp_times_affine (- k) (k * a) (/ k)
       (3 / (k * k) - a / k) x)) as H.
  unfold plus_fct, minus_fct in H.
  eapply derivable_pt_lim_ext; [ | match goal with
    | |- derivable_pt_lim _ _ ?v =>
        replace v with
          (4 * ell / s3 -
           (k * exp (k * x + - k * b) * (- / k * x + (3 / (k * k) + b / k)) +
            exp (k * x + - k * b) * - / k) +
           (- k * exp (- k * x + k * a) * (/ k * x + (3 / (k * k) - a / k)) +
            exp (- k * x + k * a) * / k)); [ exact H | ]
    end ].
  - intros y. simpl. ring.
  - replace (2 * ell / s3) with (2 / k) by (unfold k; field; lra).
    field. lra.
Qed.

Lemma qK_1d_primitive_increase (a b ell : R) :
  0 < ell ->
  qK_1d_primitive b (a, b) ell - qK_1d_primitive a (a, b) ell =
  _qKq_1d (a, b) ell.
Proof.
  intros Hell. pose proof sqrt3_pos as Hs. pose proof sqrt3_sqr as Hsqr.
  unfold qK_1d_primitive, _qKq_1d. cbv zeta.
  set (s3 := sqrt 3) in *.
  replace (s3 / ell * b + - (s3 / ell) * b) with 0 by (field; lra).
  replace (- (s3 / ell) * a + s3 / ell * a) with 0 by (field; lra).
  replace (s3 / ell * a + - (s3 / ell) * b) with (- (s3 * (b - a)) / ell)
    by (field; lra).
  replace (- (s3 / ell) * b + s3 / ell * a) with (- (s3 * (b - a)) / ell)
    by (field; lra).
  rewrite exp_0.
  generalize (exp (- (s3 * (b - a)) / ell)) as e. intros e.
  rewrite <- Hsqr. field. split; lra.
Qed.

Lemma qK_1d_continuity (a b ell : R) :
  0 < ell -> continuity (fun x => _qK_1d_scalar x (a, b) ell).
Proof.
  intros Hell. apply derivable_continuous. intros x.
  exists (_dqK_dx_1d_scalar x (a, b) ell).
  apply qK_1d_derivative. lra.
Qed.

(** X5, over exact real arithmetic: the closed form of the 1-D kernel
    variance is the integral of the closed form of the 1-D kernel mean over
    the domain: x |-> _qK_1d(x, (a,b), ell) is Riemann integrable on [a, b]
    and its integral is the expression of _qKq_1d((a,b), ell). *)
Theorem qKq_1d_integrates_qK_1d (a b ell : R) :
  0 < ell -> a <= b ->
  inhabited (Riemann_integrable (fun x => _qK_1d_scalar x (a, b) ell) a b) /\
  forall pr : Riemann_integrable (fun x => _qK_1d_scalar x (a, b) ell) a b,
    RiemannInt pr = _qKq_1d (a, b) ell.
Proof.
  intros Hell Hab. split.
  - constructor. apply continuity_implies_RiemannInt; [ exact Hab | ].
    intros x _. apply qK_1d_continuity. exact Hell.
  - intros pr.
    pose (dF := fun x : R =>
      exist (fun l => derivable_pt_abs
                        (fun y => qK_1d_primitive y (a, b) ell) x l)
            (_qK_1d_scalar x (a, b) ell)
            (qK_1d_primitive_derivative a b ell x Hell)).
    pose (C := mkC1 (c1 := fun y => qK_1d_primitive y (a, b) ell)
                 (diff0 := dF) (qK_1d_continuity a b ell Hell)).
    rewrite <- (qK_1d_primitive_increase a b ell Hell).
    exact (FTC_Riemann C pr).
Qed.

(** The theorem at a = 0, b = 1, ell = 1. *)
Lemma qKq_1d_integrates_qK_1d_witness :
  inhabited (Riemann_integrable (fun x => _qK_1d_scalar x (0, 1) 1) 0 1) /\
  forall pr : Riemann_integrable (fun x => _qK_1d_scalar x (0, 1) 1) 0 1,
    RiemannInt pr = _qKq_1d (0, 1) 1.
Proof. apply qKq_1d_integrates_qK_1d; lra. Defined.

(** ** The kernel mean, continued *)

Lemma Rprod_app (l1 l2 : list R) : Rprod (l1 ++ l2) = Rprod l1 * Rprod l2.
Proof.
  induction l1 as [ | v l1 IH]; simpl; [ ring | ].
  rewrite IH. ring.
Qed.

Lemma Rprod_pos (l : list R) : Forall (fun v => 0 < v) l -> 0 < Rprod l.
Proof.
  induction 1 as [ | v l Hv Hl IH]; simpl; [ lra | ].
  apply Rmult_lt_0_compat; assumption.
Qed.

Lemma seq_split_at (D d : nat) :
  (d < D)%nat -> seq 0 D = seq 0 d ++ d :: seq (S d) (D - S d).
Proof.
  intros Hd. replace D with (d + S (D - S d))%nat at 1 by lia.
  rewrite seq_app. reflexivity.
Qed.

Lemma qK_loop_skip_ext (self : t) (x2 : Np.array2) (s1 s2 : list Z)
    (dims : list nat) (acc : Np.vec) :
  (forall d, In d dims -> contains s1 d = contains s2 d) ->
  qK_loop self x2 s1 dims acc = qK_loop self x2 s2 dims acc.
Proof.
  revert acc. induction dims as [ | dim rest IH]; intros acc Hsame; simpl.
  - reflexivity.
  - rewrite <- (Hsame dim (or_introl eq_refl)).
    assert (Hrest : forall d, In d rest -> contains s1 d = contains s2 d)
      by (intros d Hd; apply Hsame; right; exact Hd).
    destruct (contains s1 dim); [ apply IH; exact Hrest | ].
    destruct (index (bounds (integral_bounds self)) dim); simpl;
      [ | reflexivity ].
    destruct (index (lengthscales self) dim); simpl; [ | reflexivity ].
    apply IH. exact Hrest.
Qed.

(** X6: qK reads the skip list as a set of column indices: two skip lists
    (or no list and an empty one) that hold the same indices below
    x2.shape[1] give the same outcome, value or error; order, repetitions,
    negative entries and entries beyond the last column do not matter. *)
Theorem qK_skip_as_set (self : t) (x2 : Np.array2)
    (skip1 skip2 : option (list Z)) :
  (forall d, (d < snd (Np.shape x2))%nat ->
     (In (Z.of_nat d) (default_skip skip1) <->
      In (Z.of_nat d) (default_skip skip2))) ->
  qK self x2 skip1 = qK self x2 skip2.
Proof.
  intros Hsame. unfold qK.
  rewrite (qK_loop_skip_ext self x2 (default_skip skip1) (default_skip skip2));
    [ reflexivity | ].
  intros d Hd. apply in_seq in Hd.
  specialize (Hsame d ltac:(lia)). rewrite <- !contains_In in Hsame.
  destruct (contains (default_skip skip1) d),
           (contains (default_skip skip2) d); intuition congruence.
Qed.

(** The theorem at two points with two columns, for the lists
    [1, -3, 1, 7] and [1]. *)
Lemma qK_skip_as_set_witness :
  qK square_engine two_points (Some [1; -3; 1; 7]%Z) =
  qK square_engine two_points (Some [1%Z]).
Proof.
  apply qK_skip_as_set.
  intros d Hd. change (snd (Np.shape two_points)) with 2%nat in Hd.
  destruct d as [ | [ | d]]; [ | | lia ]; simpl; intuition lia.
Defined.

(** X7, over exact real arithmetic: skipping one dimension removes exactly
    that dimension's factor: entry [0,i] of qK(x2) is entry [0,i] of
    qK(x2, skip=[d]) times _qK_1d(x2[i,d], bounds[d], ell[d]).  (The two
    sides multiply the same factors in a different order.) *)
Theorem qK_skip_one_factor (self : t) (x2 : Np.array2) (N D d : nat) :
  Np.wf x2 -> Np.shape x2 = (N, D) -> engine_dim self D -> (d < D)%nat ->
  exists q q_d,
    qK self x2 None = Ok q /\
    qK self x2 (Some [Z.of_nat d]) = Ok q_d /\
    forall i, (i < N)%nat ->
      Np.get q 0 i =
      Np.get q_d 0 i *
      _qK_1d_scalar (Np.get x2 i d) (bound_at self d) (ell_at self d).
Proof.
  intros Hwf Hshape [Hb Hl] Hd.
  assert (Hb' : (D <= length (bounds (integral_bounds self)))%nat) by lia.
  assert (Hl' : (D <= length (lengthscales self))%nat) by lia.
  destruct (qK_in_range self x2 None N D Hwf Hshape Hb' Hl')
    as [q [Hq [_ [_ Hget]]]].
  destruct (qK_in_range self x2 (Some [Z.of_nat d]) N D Hwf Hshape Hb' Hl')
    as [q_d [Hq_d [_ [_ Hget_d]]]].
  exists q, q_d. split; [ exact Hq | ]. split; [ exact Hq_d | ].
  intros i Hi. rewrite (Hget i Hi), (Hget_d i Hi).
  simpl default_skip. rewrite kept_nil, (kept_single D d Hd).
  rewrite (seq_split_at D d Hd).
  rewrite !map_app, !Rprod_app. simpl. unfold factor. ring.
Qed.

(** The theorem at the two-dimensional engine, two points and d = 1. *)
Lemma qK_skip_one_factor_witness :
  exists q q_d,
    qK square_engine two_points None = Ok q /\
    qK square_engine two_points (Some [Z.of_nat 1]) = Ok q_d /\
    forall i, (i < 2)%nat ->
      Np.get q 0 i =
      Np.get q_d 0 i *
      _qK_1d_scalar (Np.get two_points i 1) (bound_at square_engine 1)
        (ell_at square_engine 1).
Proof.
  apply (qK_skip_one_factor square_engine two_points 2 2 1).
  - split; [ reflexivity | repeat constructor ].
  - reflexivity.
  - split; reflexivity.
  - lia.
Defined.

Lemma valid_params_at (self : t) (D d : nat) :
  valid_params self -> engine_dim self D -> (d < D)%nat ->
  fst (bound_at self d) < snd (bound_at self d) /\ 0 < ell_at self d.
Proof.
  intros [Hb [Hl _]] [HDb HDl] Hd. split.
  - rewrite Forall_forall in Hb. apply Hb. apply nth_In. lia.
  - rewrite Forall_forall in Hl. apply Hl. apply nth_In. lia.
Qed.

(** X8, over exact real arithmetic: with valid parameters, every entry of
    qK is strictly positive when all the points lie in the integration
    domain. *)
Theorem qK_positive_in_domain (self : t) (x2 : Np.array2)
    (skip : option (list Z)) (N D : nat) :
  valid_params self -> engine_dim self D ->
  Np.wf x2 -> Np.shape x2 = (N, D) -> in_domain self x2 ->
  exists q,
    qK self x2 skip = Ok q /\ forall i, (i < N)%nat -> 0 < Np.get q 0 i.
Proof.
  intros Hvalid Hdim Hwf Hshape Hin.
  assert (Hb' : (D <= length (bounds (integral_bounds self)))%nat)
    by (destruct Hdim; lia).
  assert (Hl' : (D <= length (lengthscales self))%nat)
    by (destruct Hdim; lia).
  destruct (qK_in_range self x2 skip N D Hwf Hshape Hb' Hl')
    as [q [Hq [_ [_ Hget]]]].
  exists q. split; [ exact Hq | ].
  intros i Hi. rewrite (Hget i Hi).
  apply Rmult_lt_0_compat; [ apply Hvalid | ].
  apply Rprod_pos, Forall_forall. intros v Hv.
  apply in_map_iff in Hv. destruct Hv as [d [<- Hd]].
  apply kept_In in Hd. destruct Hd as [Hd _].
  destruct (valid_params_at self D d Hvalid Hdim Hd) as [Hab Hell].
  specialize (Hin i d). rewrite Hshape in Hin. specialize (Hin Hi Hd).
  unfold factor. destruct (bound_at self d) as [a b]. simpl in Hab, Hin.
  apply qK_1d_pos_inside; assumption.
Qed.

(** The theorem at the two-dimensional engine and two points of its
    domain. *)
Lemma qK_positive_in_domain_witness :
  exists q,
    qK square_engine two_points None = Ok q /\
    forall i, (i < 2)%nat -> 0 < Np.get q 0 i.
Proof.
  apply (qK_positive_in_domain square_engine two_points None 2 2).
  - unfold valid_params, square_engine, variance, lengthscales.
    cbn [kern integral_bounds bounds kern_lengthscales kern_variance].
    split; [ | split; [ | split; [ lra | reflexivity ] ] ].
    + constructor; [ cbn [fst snd]; lra | ].
      constructor; [ cbn [fst snd]; lra | ]. constructor.
    + constructor; [ lra | ]. constructor; [ lra | ]. constructor.
  - split; reflexivity.
  - split; [ reflexivity | repeat constructor ].
  - reflexivity.
  - intros i d Hi Hd.
    change (fst (Np.shape two_points)) with 2%nat in Hi.
    change (snd (Np.shape two_points)) with 2%nat in Hd.
    destruct i as [ | [ | i]]; [ | | lia ];
      (destruct d as [ | [ | d]]; [ | | lia ]);
      unfold bound_at, Np.get, two_points, square_engine;
      cbn [integral_bounds bounds nth Np.data fst snd]; lra.
Defined.

(** ** Rows and entries of the batch *)

Lemma wf_row_length (x2 : Np.array2) (N D i : nat) :
  Np.wf x2 -> Np.shape x2 = (N, D) -> (i < N)%nat ->
  length (Np.row x2 i) = D.
Proof.
  intros [Hrows Hcols] Hshape Hi. rewrite Hshape in Hrows, Hcols.
  simpl in Hrows, Hcols. rewrite Forall_forall in Hcols.
  apply Hcols. unfold Np.row. apply nth_In. lia.
Qed.

Lemma single_row_wf (x2 : Np.array2) (N D i : nat) :
  Np.wf x2 -> Np.shape x2 = (N, D) -> (i < N)%nat ->
  Np.wf (single_row x2 i) /\ Np.shape (single_row x2 i) = (1%nat, D).
Proof.
  intros Hwf Hshape Hi. unfold single_row, Np.wf. simpl.
  rewrite Hshape. simpl. repeat split.
  constructor; [ | constructor ].
  apply (wf_row_length x2 N D i Hwf Hshape Hi).
Qed.

Lemma with_entry_wf (x2 : Np.array2) (N D i d : nat) (y : R) :
  Np.wf x2 -> Np.shape x2 = (N, D) -> (i < N)%nat ->
  Np.wf (with_entry x2 i d y) /\ Np.shape (with_entry x2 i d y) = (N, D).
Proof.
  intros Hwf Hshape Hi. split; [ | exact Hshape ].
  pose proof (wf_row_length x2 N D i Hwf Hshape Hi) as Hrow.
  destruct Hwf as [Hrows Hcols]. unfold with_entry, Np.wf. simpl.
  split; [ rewrite update_length; exact Hrows | ].
  apply update_Forall; [ exact Hcols | ].
  rewrite update_length, Hshape. exact Hrow.
Qed.

Lemma with_entry_get_same (x2 : Np.array2) (N D i d : nat) (y : R) :
  Np.wf x2 -> Np.shape x2 = (N, D) -> (i < N)%nat -> (d < D)%nat ->
  Np.get (with_entry x2 i d y) i d = y.
Proof.
  intros Hwf Hshape Hi Hd.
  pose proof (wf_row_length x2 N D i Hwf Hshape Hi) as Hrow.
  destruct Hwf as [Hrows _]. rewrite Hshape in Hrows. simpl in Hrows.
  unfold Np.get, with_entry. simpl.
  rewrite update_nth_same by lia.
  apply update_nth_same. lia.
Qed.

Lemma with_entry_get_other (x2 : Np.array2) (N D i d d' : nat) (y : R) :
  Np.wf x2 -> Np.shape x2 = (N, D) -> (i < N)%nat -> d <> d' ->
  Np.get (with_entry x2 i d y) i d' = Np.get x2 i d'.
Proof.
  intros [Hrows _] Hshape Hi Hne.
  rewrite Hshape in Hrows. simpl in Hrows.
  unfold Np.get, with_entry. simpl.
  rewrite update_nth_same by lia.
  apply update_nth_other. exact Hne.
Qed.

(** The entries of [dqK_dx] when every column index is in range. *)
Lemma dqK_dx_entries_in_range (self : t) (x2 : Np.array2) (N D : nat) :
  Np.wf x2 -> Np.shape x2 = (N, D) ->
  (D <= length (bounds (integral_bounds self)))%nat ->
  (D <= length (lengthscales self))%nat ->
  exists g,
    dqK_dx self x2 = Ok g /\ Np.shape g = (D, N) /\ Np.wf g /\
    forall d i, (d < D)%nat -> (i < N)%nat ->
      Np.get g d i =
      _dqK_dx_1d_scalar (Np.get x2 i d) (bound_at self d) (ell_at self d) *
      (variance self * Rprod (map (factor self x2 i) (kept [Z.of_nat d] D))).
Proof.
  intros Hwf Hshape Hb Hl.
  destruct (dqK_dx_in_range self x2 N D Hwf Hshape Hb Hl)
    as [g [Hg [Hs [Hg_wf Hrow]]]].
  exists g. repeat split; try assumption; try apply Hg_wf.
  intros d i Hd Hi.
  change (Np.get g d i) with (nth i (Np.row g d) 0).
  rewrite (Hrow d Hd).
  apply (gradient_row_nth self x2 N D Hwf Hshape Hb Hl). exact Hi.
Qed.

(** X9: dqK_dx is the gradient of qK: for a point i and a dimension d,
    the function that stores y at x2[i,d] and reads qK(x2)[0,i] is
    differentiable at the stored coordinate, with derivative
    dqK_dx(x2)[d,i]. *)
Theorem dqK_dx_is_gradient (self : t) (x2 : Np.array2) (N D : nat) :
  Np.wf x2 -> Np.shape x2 = (N, D) -> engine_dim self D ->
  Forall (fun ell => 0 < ell) (lengthscales self) ->
  exists g,
    dqK_dx self x2 = Ok g /\
    forall i d, (i < N)%nat -> (d < D)%nat ->
      derivable_pt_lim (fun y => qK_entry self (with_entry x2 i d y) i)
        (Np.get x2 i d) (Np.get g d i).
Proof.
  intros Hwf Hshape [Hb Hl] Hpos.
  assert (Hb' : (D <= length (bounds (integral_bounds self)))%nat) by lia.
  assert (Hl' : (D <= length (lengthscales self))%nat) by lia.
  destruct (dqK_dx_entries_in_range self x2 N D Hwf Hshape Hb' Hl')
    as [g [Hg [_ [_ Hget]]]].
  exists g. split; [ exact Hg | ].
  intros i d Hi Hd. rewrite (Hget d i Hd Hi).
  rewrite (kept_single D d Hd).
  set (C := variance self *
            Rprod (map (factor self x2 i) (seq 0 d ++ seq (S d) (D - S d)))).
  assert (Hell : ell_at self d <> 0).
  { rewrite Forall_forall in Hpos.
    assert (0 < ell_at self d) by (apply Hpos, nth_In; lia). lra. }
  apply derivable_pt_lim_ext with
    (f := mult_real_fct C
            (fun y => _qK_1d_scalar y (bound_at self d) (ell_at self d))).
  - intros y. unfold mult_real_fct, qK_entry.
    destruct (with_entry_wf x2 N D i d y Hwf Hshape Hi) as [Hwf' Hshape'].
    destruct (qK_in_range self (with_entry x2 i d y) None N D Hwf' Hshape'
                Hb' Hl') as [q [Hq [_ [_ Hq_get]]]].
    rewrite Hq, (Hq_get i Hi). simpl default_skip.
    rewrite kept_nil, (seq_split_at D d Hd).
    unfold C. rewrite !map_app, !Rprod_app. simpl map. simpl Rprod.
    unfold factor at 4.
    rewrite (with_entry_get_same x2 N D i d y Hwf Hshape Hi Hd).
    rewrite (map_ext_in (factor self (with_entry x2 i d y) i)
               (factor self x2 i) (seq 0 d)).
    + rewrite (map_ext_in (factor self (with_entry x2 i d y) i)
                 (factor self x2 i) (seq (S d) (D - S d))); [ ring | ].
      intros d' Hd'. apply in_seq in Hd'. unfold factor.
      rewrite (with_entry_get_other x2 N D i d d' y Hwf Hshape Hi) by lia.
      reflexivity.
    + intros d' Hd'. apply in_seq in Hd'. unfold factor.
      rewrite (with_entry_get_other x2 N D i d d' y Hwf Hshape Hi) by lia.
      reflexivity.
  - rewrite Rmult_comm. apply derivable_pt_lim_scal.
    destruct (bound_at self d) as [a b].
    apply qK_1d_derivative. exact Hell.
Qed.

(** The theorem at the two-dimensional engine and two points. *)
Lemma dqK_dx_is_gradient_witness :
  exists g,
    dqK_dx square_engine two_points = Ok g /\
    forall i d, (i < 2)%nat -> (d < 2)%nat ->
      derivable_pt_lim
        (fun y => qK_entry square_engine (with_entry two_points i d y) i)
        (Np.get two_points i d) (Np.get g d i).
Proof.
  apply (dqK_dx_is_gradient square_engine two_points 2 2).
  - split; [ reflexivity | repeat constructor ].
  - reflexivity.
  - split; reflexivity.
  - unfold square_engine, lengthscales. cbn [kern kern_lengthscales].
    constructor; [ lra | ]. constructor; [ lra | ]. constructor.
Defined.

(** X10: the points of a batch are evaluated independently: entry [0,i] of
    qK and column i of dqK_dx on the whole batch are what the batch made
    of row i alone gives. *)
Theorem batch_rows_independent (self : t) (x2 : Np.array2)
    (skip : option (list Z)) (N D i : nat) :
  Np.wf x2 -> Np.shape x2 = (N, D) -> engine_dim self D -> (i < N)%nat ->
  exists q q1 g g1,
    qK self x2 skip = Ok q /\ qK self (single_row x2 i) skip = Ok q1 /\
    Np.get q 0 i = Np.get q1 0 0 /\
    dqK_dx self x2 = Ok g /\ dqK_dx self (single_row x2 i) = Ok g1 /\
    forall d, (d < D)%nat -> Np.get g d i = Np.get g1 d 0.
Proof.
  intros Hwf Hshape [Hb Hl] Hi.
  assert (Hb' : (D <= length (bounds (integral_bounds self)))%nat) by lia.
  assert (Hl' : (D <= length (lengthscales self))%nat) by lia.
  destruct (single_row_wf x2 N D i Hwf Hshape Hi) as [Hwf1 Hshape1].
  destruct (qK_in_range self x2 skip N D Hwf Hshape Hb' Hl')
    as [q [Hq [_ [_ Hq_get]]]].
  destruct (qK_in_range self (single_row x2 i) skip 1 D Hwf1 Hshape1 Hb' Hl')
    as [q1 [Hq1 [_ [_ Hq1_get]]]].
  destruct (dqK_dx_entries_in_range self x2 N D Hwf Hshape Hb' Hl')
    as [g [Hg [_ [_ Hg_get]]]].
  destruct (dqK_dx_entries_in_range self (single_row x2 i) 1 D Hwf1 Hshape1
              Hb' Hl') as [g1 [Hg1 [_ [_ Hg1_get]]]].
  exists q, q1, g, g1.
  repeat split; try assumption.
  - rewrite (Hq_get i Hi), (Hq1_get 0%nat) by lia. reflexivity.
  - intros d Hd. rewrite (Hg_get d i Hd Hi), (Hg1_get d 0%nat Hd) by lia.
    reflexivity.
Qed.

(** The theorem at the two-dimensional engine and the second of two
    points. *)
Lemma batch_rows_independent_witness :
  exists q q1 g g1,
    qK square_engine two_points None = Ok q /\
    qK square_engine (single_row two_points 1) None = Ok q1 /\
    Np.get q 0 1 = Np.get q1 0 0 /\
    dqK_dx square_engine two_points = Ok g /\
    dqK_dx square_engine (single_row two_points 1) = Ok g1 /\
    forall d, (d < 2)%nat -> Np.get g d 1 = Np.get g1 d 0.
Proof.
  apply (batch_rows_independent square_engine two_points None 2 2 1).
  - split; [ reflexivity | repeat constructor ].
  - reflexivity.
  - split; reflexivity.
  - lia.
Defined.

(** ** Engines whose lengthscales and bounds disagree *)

Lemma qKq_loop_out_of_range (self : t) (dims : list nat) (acc : R) :
  (exists d, In d dims /\
     ((length (bounds (integral_bounds self)) <= d)%nat \/
      (length (lengthscales self) <= d)%nat)) ->
  qKq_loop self dims acc = Raise IndexError.
Proof.
  revert acc. induction dims as [ | dim rest IH]; intros acc [d [Hd Hout]].
  - destruct Hd.
  - simpl.
    destruct (Nat.lt_ge_cases dim (length (bounds (integral_bounds self))))
      as [Hb | Hb]; [ | rewrite (index_out_of_range _ _ Hb); reflexivity ].
    rewrite (index_in_range _ _ (0, 0) Hb). simpl.
    destruct (Nat.lt_ge_cases dim (length (lengthscales self)))
      as [Hl | Hl]; [ | rewrite (index_out_of_range _ _ Hl); reflexivity ].
    rewrite (index_in_range _ _ 0 Hl). simpl.
    apply IH. exists d. destruct Hd as [-> | Hd]; [ lia | auto ].
Qed.

(** X11: qKq loops over the bound pairs.  With fewer lengthscales than
    bound pairs it raises IndexError; with at least as many it returns
    variance times the product over the bound pairs and never reads the
    surplus lengthscales. *)
Theorem qKq_dimension_mismatch (self : t) :
  ((length (lengthscales self) < length (bounds (integral_bounds self)))%nat ->
   qKq self = Raise IndexError) /\
  ((length (bounds (integral_bounds self)) <= length (lengthscales self))%nat ->
   qKq self =
   Ok (variance self *
       Rprod (map (qKq_factor self)
                (seq 0 (length (bounds (integral_bounds self))))))).
Proof.
  split; intros Hlen; unfold qKq, input_dim, bounds_dim.
  - rewrite qKq_loop_out_of_range; [ reflexivity | ].
    exists (length (lengthscales self)). split; [ apply in_seq; lia | ].
    right. lia.
  - rewrite qKq_loop_in_range by (intros d Hd; apply in_seq in Hd; lia).
    simpl. f_equal. ring.
Qed.

(** The theorem at an engine with one lengthscale for two bound pairs and
    at an engine with three. *)
Lemma qKq_dimension_mismatch_witness :
  qKq short_lengthscales_engine = Raise IndexError /\
  qKq long_lengthscales_engine =
  Ok (variance long_lengthscales_engine *
      Rprod (map (qKq_factor long_lengthscales_engine) (seq 0 2))).
Proof.
  split.
  - apply (proj1 (qKq_dimension_mismatch short_lengthscales_engine)).
    simpl. lia.
  - apply (proj2 (qKq_dimension_mismatch long_lengthscales_engine)).
    simpl. lia.
Defined.

(** ** The transposed counterparts, continued *)

(** X12: on the general variant the inherited Kq and dKq_dx raise
    NotImplementedError too, for every input: they call qK and dqK_dx
    through self before transposing. *)
Theorem general_variant_transposes_not_implemented (M : Type)
    (self : QuadratureMatern32.t M) (x1 : Np.array2) :
  QuadratureMatern32.Kq self x1 = Raise NotImplementedError /\
  QuadratureMatern32.dKq_dx self x1 = Raise NotImplementedError.
Proof. split; reflexivity. Qed.

(** X13: on the Lebesgue engine Kq and dKq_dx raise IndexError when the
    points have more columns than there are bound pairs or lengthscales. *)
Theorem Kq_more_columns (self : t) (x1 : Np.array2) :
  ((length (bounds (integral_bounds self)) < snd (Np.shape x1))%nat \/
   (length (lengthscales self) < snd (Np.shape x1))%nat) ->
  QuadratureMatern32.Kq self x1 = Raise IndexError /\
  QuadratureMatern32.dKq_dx self x1 = Raise IndexError.
Proof.
  intros Hshort. unfold QuadratureMatern32.Kq, QuadratureMatern32.dKq_dx.
  simpl.
  rewrite (dqK_dx_out_of_range self x1 Hshort).
  rewrite qK_out_of_range; [ split; reflexivity | ].
  exists (Nat.min (length (bounds (integral_bounds self)))
                  (length (lengthscales self))).
  split; [ lia | ]. split; [ simpl; tauto | lia ].
Qed.

(** The theorem at a three-column point on the two-dimensional engine. *)
Lemma Kq_more_columns_witness :
  QuadratureMatern32.Kq square_engine wide_point = Raise IndexError /\
  QuadratureMatern32.dKq_dx square_engine wide_point = Raise IndexError.
Proof. apply Kq_more_columns. left. simpl. lia. Defined.

Lemma map_nth_seq_id {A : Type} (l : list A) (d : A) :
  map (fun i => nth i l d) (seq 0 (length l)) = l.
Proof.
  apply (nth_ext _ _ d d).
  - rewrite length_map, length_seq. reflexivity.
  - intros n Hn. rewrite length_map, length_seq in Hn.
    rewrite (nth_indep _ d (nth 0 l d)) by (rewrite length_map, length_seq; exact Hn).
    rewrite (map_nth (fun i => nth i l d) (seq 0 (length l)) 0%nat n).
    rewrite seq_nth by exact Hn. reflexivity.
Qed.

(** Transposing twice gives the array back. *)
Lemma T_involutive (x : Np.array2) : Np.wf x -> Np.T (Np.T x) = x.
Proof.
  destruct x as [[n m] rows]. intros [Hrows Hcols]. simpl in Hrows, Hcols.
  pose (x := {| Np.shape := (n, m); Np.data := rows |}).
  unfold Np.T. cbn [Np.shape Np.data fst snd]. f_equal.
  transitivity (map (fun i => nth i rows []) (seq 0 (length rows)));
    [ | apply map_nth_seq_id ].
  rewrite Hrows. apply map_ext_in. intros i Hi. apply in_seq in Hi.
  unfold Np.col at 1. cbn [Np.data]. rewrite map_map.
  assert (Hlen : length (nth i rows []) = m).
  { rewrite Forall_forall in Hcols. apply Hcols, nth_In. lia. }
  transitivity (map (fun j => nth j (nth i rows []) 0)
                  (seq 0 (length (nth i rows []))));
    [ | apply map_nth_seq_id ].
  rewrite Hlen. apply map_ext_in. intros j Hj.
  apply (col_nth x i j). unfold x. cbn [Np.data]. lia.
Qed.

(** X14: transposing what Kq returns gives back what qK returns, and
    transposing what dKq_dx returns gives back what dqK_dx returns. *)
Theorem transposes_round_trip (self : t) (x : Np.array2) (N D : nat) :
  Np.wf x -> Np.shape x = (N, D) -> engine_dim self D ->
  exists k h,
    QuadratureMatern32.Kq self x = Ok k /\
    qK self x None = Ok (Np.T k) /\
    QuadratureMatern32.dKq_dx self x = Ok h /\
    dqK_dx self x = Ok (Np.T h).
Proof.
  intros Hwf Hshape [Hb Hl].
  assert (Hb' : (D <= length (bounds (integral_bounds self)))%nat) by lia.
  assert (Hl' : (D <= length (lengthscales self))%nat) by lia.
  destruct (qK_in_range self x None N D Hwf Hshape Hb' Hl')
    as [q [Hq [_ [Hq_wf _]]]].
  destruct (dqK_dx_in_range self x N D Hwf Hshape Hb' Hl')
    as [g [Hg [_ [Hg_wf _]]]].
  exists (Np.T q), (Np.T g).
  unfold QuadratureMatern32.Kq, QuadratureMatern32.dKq_dx. simpl.
  rewrite Hq, Hg. simpl.
  rewrite (T_involutive q Hq_wf), (T_involutive g Hg_wf).
  repeat split; reflexivity.
Qed.

(** The theorem at the two-dimensional engine and two points. *)
Lemma transposes_round_trip_witness :
  exists k h,
    QuadratureMatern32.Kq square_engine two_points = Ok k /\
    qK square_engine two_points None = Ok (Np.T k) /\
    QuadratureMatern32.dKq_dx square_engine two_points = Ok h /\
    dqK_dx square_engine two_points = Ok (Np.T h).
Proof.
  apply (transposes_round_trip square_engine two_points 2 2).
  - split; [ reflexivity | repeat constructor ].
  - reflexivity.
  - split; reflexivity.
Defined.

(** ** A batch without points *)

Lemma all_rows_empty (l : list (list R)) (D : nat) :
  length l = D -> Forall (fun r => length r = 0%nat) l -> l = repeat [] D.
Proof.
  intros <- Hall. induction Hall as [ | r l Hr Hl IH]; simpl.
  - reflexivity.
  - apply length_zero_iff_nil in Hr. subst r. f_equal. exact IH.
Qed.

(** X15: for a batch of shape (0,D), qK returns the array of shape (1,0)
    and dqK_dx the array of shape (D,0) when D is at most the number of
    bound pairs and of lengthscales; when D exceeds either, both still
    raise IndexError although there is no point to evaluate. *)
Theorem empty_batch (self : t) (x2 : Np.array2) (D : nat) :
  Np.wf x2 -> Np.shape x2 = (0%nat, D) ->
  ((D <= length (bounds (integral_bounds self)))%nat ->
   (D <= length (lengthscales self))%nat ->
   qK self x2 None = Ok {| Np.shape := (1%nat, 0%nat); Np.data := [[]] |} /\
   dqK_dx self x2 =
   Ok {| Np.shape := (D, 0%nat); Np.data := repeat [] D |}) /\
  (((length (bounds (integral_bounds self)) < D)%nat \/
    (length (lengthscales self) < D)%nat) ->
   qK self x2 None = Raise IndexError /\
   dqK_dx self x2 = Raise IndexError).
Proof.
  intros Hwf Hshape. split.
  - intros Hb Hl.
    destruct (qK_in_range self x2 None 0 D Hwf Hshape Hb Hl)
      as [[qs qd] [Hq [Hqs [[Hq_rows Hq_cols] _]]]].
    destruct (dqK_dx_in_range self x2 0 D Hwf Hshape Hb Hl)
      as [[gs gd] [Hg [Hgs [[Hg_rows Hg_cols] _]]]].
    simpl in *. subst qs gs. simpl in *.
    rewrite Hq, Hg.
    rewrite (all_rows_empty qd 1 Hq_rows Hq_cols).
    rewrite (all_rows_empty gd D Hg_rows Hg_cols).
    split; reflexivity.
  - intros Hshort.
    assert (HD : snd (Np.shape x2) = D) by (rewrite Hshape; reflexivity).
    split.
    + apply qK_out_of_range.
      exists (Nat.min (length (bounds (integral_bounds self)))
                      (length (lengthscales self))).
      rewrite HD. split; [ lia | ]. split; [ simpl; tauto | lia ].
    + apply dqK_dx_out_of_range. rewrite HD. exact Hshort.
Qed.

(** The theorem at the two-dimensional engine, for empty batches with two
    and with three columns. *)
Lemma empty_batch_witness :
  (qK square_engine {| Np.shape := (0%nat, 2%nat); Np.data := [] |} None =
     Ok {| Np.shape := (1%nat, 0%nat); Np.data := [[]] |} /\
   dqK_dx square_engine {| Np.shape := (0%nat, 2%nat); Np.data := [] |} =
     Ok {| Np.shape := (2%nat, 0%nat); Np.data := repeat [] 2 |}) /\
  (qK square_engine {| Np.shape := (0%nat, 3%nat); Np.data := [] |} None =
     Raise IndexError /\
   dqK_dx square_engine {| Np.shape := (0%nat, 3%nat); Np.data := [] |} =
     Raise IndexError).
Proof.
  split.
  - apply (proj1 (empty_batch square_engine
                    {| Np.shape := (0%nat, 2%nat); Np.data := [] |} 2
                    (conj eq_refl (Forall_nil _)) eq_refl));
      simpl; lia.
  - apply (proj2 (empty_batch square_engine
                    {| Np.shape := (0%nat, 3%nat); Np.data := [] |} 3
                    (conj eq_refl (Forall_nil _)) eq_refl)).
    left. simpl. lia.
Defined.

(** ** Where the 1-D kernel mean grows and where it peaks *)

Lemma matern32_profile_decreasing (u v : R) :
  0 <= u -> u < v -> matern32_profile v < matern32_profile u.
Proof.
  intros Hu Huv. unfold matern32_profile.
  assert (Hw : 1 + (v - u) < exp (v - u)) by (apply exp_ineq1; lra).
  assert (Hinv : exp (- (v - u)) * exp (v - u) = 1).
  { rewrite <- exp_plus. replace (- (v - u) + (v - u)) with 0 by ring.
    apply exp_0. }
  assert (Hsplit : exp (- v) = exp (- u) * exp (- (v - u))).
  { rewrite <- exp_plus. f_equal. ring. }
  pose proof (exp_pos (- u)) as Hpu.
  pose proof (exp_pos (- (v - u))) as Hpw.
  assert (H0 : 0 <= u * (v - u)) by (apply Rmult_le_pos; lra).
  assert (H1 : (1 + u) * (1 + (v - u)) < (1 + u) * exp (v - u))
    by (apply Rmult_lt_compat_l; lra).
  assert (H2 : 1 + v < (1 + u) * exp (v - u)) by lra.
  assert (H3 : exp (- (v - u)) * (1 + v) <
               exp (- (v - u)) * ((1 + u) * exp (v - u)))
    by (apply Rmult_lt_compat_l; assumption).
  replace (exp (- (v - u)) * ((1 + u) * exp (v - u))) with (1 + u) in H3
    by (rewrite <- (Rmult_1_r (1 + u)) at 1; rewrite <- Hinv; ring).
  rewrite Hsplit, Rmult_assoc.
  apply Rmult_lt_compat_l; assumption.
Qed.

Lemma dqK_dx_1d_as_profiles (a b ell x : R) :
  0 < ell ->
  _dqK_dx_1d_scalar x (a, b) ell =
  matern32_profile (sqrt 3 * (x - a) / ell) -
  matern32_profile (sqrt 3 * (b - x) / ell).
Proof.
  intros Hell. unfold _dqK_dx_1d_scalar, matern32_profile. cbv zeta.
  replace (- (sqrt 3 * (x - a) / ell)) with (sqrt 3 * (a - x) / ell)
    by (field; lra).
  replace (- (sqrt 3 * (b - x) / ell)) with (sqrt 3 * (x - b) / ell)
    by (field; lra).
  field. lra.
Qed.

Lemma scaled_distance_order (ell w1 w2 : R) :
  0 < ell -> 0 <= w1 -> w1 < w2 ->
  0 <= sqrt 3 * w1 / ell /\ sqrt 3 * w1 / ell < sqrt 3 * w2 / ell.
Proof.
  intros Hell H1 H12. pose proof sqrt3_pos as Hs.
  assert (Hinv : 0 < / ell) by (apply Rinv_0_lt_compat; exact Hell).
  split.
  - apply Rmult_le_pos; [ apply Rmult_le_pos; lra | lra ].
  - unfold Rdiv. apply Rmult_lt_compat_r; [ exact Hinv | ].
    apply Rmult_lt_compat_l; lra.
Qed.

Lemma dqK_dx_1d_pos_left (a b ell x : R) :
  0 < ell -> a <= x -> x < (a + b) / 2 -> 0 < _dqK_dx_1d_scalar x (a, b) ell.
Proof.
  intros Hell Hax Hmid. rewrite dqK_dx_1d_as_profiles by exact Hell.
  destruct (scaled_distance_order ell (x - a) (b - x) Hell) as [H0 Hlt];
    try lra.
  pose proof (matern32_profile_decreasing _ _ H0 Hlt). lra.
Qed.

Lemma dqK_dx_1d_neg_right (a b ell x : R) :
  0 < ell -> x <= b -> (a + b) / 2 < x -> _dqK_dx_1d_scalar x (a, b) ell < 0.
Proof.
  intros Hell Hxb Hmid. rewrite dqK_dx_1d_as_profiles by exact Hell.
  destruct (scaled_distance_order ell (b - x) (x - a) Hell) as [H0 Hlt];
    try lra.
  pose proof (matern32_profile_decreasing _ _ H0 Hlt). lra.
Qed.

(** X16, over exact real arithmetic: inside the domain the closed form of
    the 1-D gradient is positive left of the midpoint and negative right of
    it, and the closed form of the 1-D kernel mean is largest at the
    midpoint. *)
Theorem qK_1d_peaks_at_midpoint (a b ell x : R) :
  0 < ell -> a <= x <= b ->
  (x < (a + b) / 2 -> 0 < _dqK_dx_1d_scalar x (a, b) ell) /\
  ((a + b) / 2 < x -> _dqK_dx_1d_scalar x (a, b) ell < 0) /\
  _qK_1d_scalar x (a, b) ell <= _qK_1d_scalar ((a + b) / 2) (a, b) ell.
Proof.
  intros Hell [Hax Hxb].
  split; [ intros; apply dqK_dx_1d_pos_left; assumption | ].
  split; [ intros; apply dqK_dx_1d_neg_right; assumption | ].
  assert (Hder : forall lo hi c, lo <= c <= hi ->
    derivable_pt_lim (fun y => _qK_1d_scalar y (a, b) ell) c
      ((fun y => _dqK_dx_1d_scalar y (a, b) ell) c)).
  { intros lo hi c _. apply qK_1d_derivative. lra. }
  destruct (Rtotal_order x ((a + b) / 2)) as [Hlt | [-> | Hgt]].
  - destruct (MVT_cor2 (fun y => _qK_1d_scalar y (a, b) ell)
                (fun y => _dqK_dx_1d_scalar y (a, b) ell)
                x ((a + b) / 2) Hlt (Hder _ _)) as [c [Heq [Hc1 Hc2]]].
    assert (Hpos : 0 < _dqK_dx_1d_scalar c (a, b) ell)
      by (apply dqK_dx_1d_pos_left; lra).
    assert (0 < _dqK_dx_1d_scalar c (a, b) ell * ((a + b) / 2 - x))
      by (apply Rmult_lt_0_compat; lra).
    lra.
  - lra.
  - destruct (MVT_cor2 (fun y => _qK_1d_scalar y (a, b) ell)
                (fun y => _dqK_dx_1d_scalar y (a, b) ell)
                ((a + b) / 2) x Hgt (Hder _ _)) as [c [Heq [Hc1 Hc2]]].
    assert (Hneg : _dqK_dx_1d_scalar c (a, b) ell < 0)
      by (apply dqK_dx_1d_neg_right; lra).
    assert (0 < - _dqK_dx_1d_scalar c (a, b) ell * (x - (a + b) / 2))
      by (apply Rmult_lt_0_compat; lra).
    lra.
Qed.

(** The theorem at a = 0, b = 2, ell = 1, x = 1/2. *)
Lemma qK_1d_peaks_at_midpoint_witness :
  0 < _dqK_dx_1d_scalar (1 / 2) (0, 2) 1 /\
  _qK_1d_scalar (1 / 2) (0, 2) 1 <= _qK_1d_scalar ((0 + 2) / 2) (0, 2) 1.
Proof.
  destruct (qK_1d_peaks_at_midpoint 0 2 1 (1 / 2)) as [Hleft [_ Hmax]].
  - lra.
  - split; lra.
  - split; [ apply Hleft; lra | exact Hmax ].
Defined.

(** ** The doubly integrated kernel, continued *)

Lemma qKq_shape_pos (t : R) : 0 < t -> 0 < qKq_shape t.
Proof.
  intros Ht.
  destruct (MVT_cor2 qKq_shape qKq_shape' 0 t Ht) as [c [Heq [Hc0 Hct]]].
  { intros; apply qKq_shape_derivative. }
  rewrite qKq_shape_0 in Heq.
  assert (Hd : 0 < qKq_shape' c) by (apply qKq_shape'_pos; lra).
  assert (Hm : 0 < qKq_shape' c * (t - 0)) by (apply Rmult_lt_0_compat; lra).
  lra.
Qed.

Lemma qKq_1d_pos (a b ell : R) :
  0 < ell -> a < b -> 0 < _qKq_1d (a, b) ell.
Proof.
  intros Hell Hab. pose proof sqrt3_pos as Hs.
  rewrite qKq_1d_as_shape by exact Hell.
  apply Rmult_lt_0_compat.
  - assert (0 < ell * ell) by (apply Rmult_lt_0_compat; assumption). lra.
  - apply qKq_shape_pos.
    apply Rmult_lt_0_compat; [ | apply Rinv_0_lt_compat; assumption ].
    apply Rmult_lt_0_compat; lra.
Qed.

(** X17, over exact real arithmetic: for valid parameters qKq() is strictly
    positive. *)
Theorem qKq_positive (self : t) :
  valid_params self -> exists v, qKq self = Ok v /\ 0 < v.
Proof.
  intros Hvalid.
  assert (Hdim : engine_dim self (input_dim self)).
  { destruct Hvalid as [_ [_ [_ Hlen]]]. split; [ reflexivity | exact Hlen ]. }
  unfold qKq.
  rewrite qKq_loop_in_range
    by (intros d Hd; apply in_seq in Hd; destruct Hdim; lia).
  simpl. eexists. split; [ reflexivity | ].
  apply Rmult_lt_0_compat; [ apply Hvalid | ].
  rewrite Rmult_1_l. apply Rprod_pos, Forall_forall. intros v Hv.
  apply in_map_iff in Hv. destruct Hv as [d [<- Hd]].
  apply in_seq in Hd.
  destruct (valid_params_at self (input_dim self) d Hvalid Hdim) as [Hab Hell];
    [ lia | ].
  rewrite <- qKq_1d_factor.
  destruct (bound_at self d) as [a b]. simpl in Hab.
  apply qKq_1d_pos; assumption.
Qed.

(** The theorem at the two-dimensional engine. *)
Lemma qKq_positive_witness :
  exists v, qKq square_engine = Ok v /\ 0 < v.
Proof.
  apply (qKq_positive square_engine).
  unfold valid_params, square_engine, variance, lengthscales.
  cbn [kern integral_bounds bounds kern_lengthscales kern_variance].
  split; [ | split; [ | split; [ lra | reflexivity ] ] ].
  - constructor; [ cbn [fst snd]; lra | ].
    constructor; [ cbn [fst snd]; lra | ]. constructor.
  - constructor; [ lra | ]. constructor; [ lra | ]. constructor.
Defined.
